(** * Rate limiters: the leaky bucket and the token bucket

  A shallow embedding of [Rate-Limiter/leaking_bucket.cpp] and
  [Rate-Limiter/token_bucket.cpp], and the properties their specification
  states of them.

  **Scalars.**  [int] is a 32-bit and [long]/[int64_t] a 64-bit two's
  complement integer (LP64).  Both are carried as [Z]; every signed
  operation of the source is written with its wrap-around ([to_long],
  [to_int]): an overflow, undefined in C++, is taken to wrap as the machine
  does.  [double] is IEEE 754 binary64 with round-to-nearest-even, as the
  executable specification [SpecFloat] of the standard library defines it
  (precision 53, exponent bound 1024): every operation of the source
  rounds its exact result once; the arithmetic is not idealised to real
  numbers.

  **State.**  Each class is a record of its fields; a member function is a
  function from the object (and its argument) to the returned [bool] and
  the updated object.

  **Time.**  [LeakyBucket::allow] is given its timestamp.
  [TokenBucket::isAllowable] reads [std::chrono::steady_clock]; the value
  read, in seconds, is the explicit argument [now].  Where a property of
  the token bucket depends on it, the readings are taken as the clock
  gives them: never decreasing, counted from the epoch 0 from which
  [lastRefillTime] starts, and within the [int] the class stores them in
  ([TokenBucket.steady]). *)

From Stdlib Require Import ZArith Lia Bool List SpecFloat.
Import ListNotations.
Local Open Scope Z_scope.

(** ** C++ scalars *)

Module Cxx.

(** Two's complement reduction to [w] bits. *)
Definition wrap (w z : Z) : Z := (z + 2 ^ (w - 1)) mod 2 ^ w - 2 ^ (w - 1).

Definition to_int (z : Z) : Z := wrap 32 z.
Definition to_long (z : Z) : Z := wrap 64 z.

Definition in_int (z : Z) : Prop := - 2 ^ 31 <= z < 2 ^ 31.
Definition in_long (z : Z) : Prop := - 2 ^ 63 <= z < 2 ^ 63.

(** [double]: binary64. *)
Definition double : Type := spec_float.

Definition dadd : double -> double -> double := SFadd 53 1024.
Definition dsub : double -> double -> double := SFsub 53 1024.
Definition dmul : double -> double -> double := SFmul 53 1024.
Definition ddiv : double -> double -> double := SFdiv 53 1024.
Definition dlt : double -> double -> bool := SFltb.
Definition dle : double -> double -> bool := SFleb.
Definition dge (a b : double) : bool := SFleb b a.

(** Conversion of an integer ([int], [long]) to [double]. *)
Definition d_of_Z (z : Z) : double := binary_normalize 53 1024 z 0 false.

(** The literals [0.0], [1.0] and [1000.0]. *)
Definition d0 : double := S754_zero false.
Definition d1 : double := S754_finite false 4503599627370496 (-52).
Definition d1000 : double := S754_finite false 8796093022208000 (-43).

(** [std::max(a, b)] is [(a < b) ? b : a]; [std::min(a, b)] is
    [(b < a) ? b : a]. *)
Definition std_max (a b : double) : double := if dlt a b then b else a.
Definition std_min (a b : double) : double := if dlt b a then b else a.

(** A constructor call either completes and yields the object, or leaves
    by an exception. *)
Inductive construction (A : Type) : Type :=
| Constructed (obj : A)
| Thrown.
Arguments Constructed {A} obj.
Arguments Thrown {A}.

End Cxx.
Import Cxx.

(** ** Binary64 arithmetic *)

Module B64.

(** The value of mantissa [m] at exponent [e], in units of [2^-1074] (the
    least positive binary64 number): an integer for every [e >= -1074]. *)
Definition val (m e : Z) : Z := m * 2 ^ (e + 1074).
Arguments val : simpl never.

Definition SFval (x : spec_float) : Z :=
  match x with
  | S754_finite s m e => cond_Zopp s (val (Zpos m) e)
  | _ => 0
  end.

Definition dg (m : positive) : Z := Zpos (digits2_pos m).
Arguments dg : simpl never.

Definition canonical (m : positive) (e : Z) : bool :=
  canonical_mantissa 53 1024 m e.

(** Zero or a finite number in canonical form and in range. *)
Definition finite_valid (x : spec_float) : bool :=
  match x with
  | S754_zero _ => true
  | S754_finite _ m e => bounded 53 1024 m e
  | _ => false
  end.

(** [m' * 2^e'] is a canonical number next to the exact value [a]: every
    canonical number on one side of [a] is on the same side of it. *)
Definition sandwich (a : Z) (m' : positive) (e' : Z) : Prop :=
  forall mX eX, canonical mX eX = true ->
    (a <= val (Zpos mX) eX -> val (Zpos m') e' <= val (Zpos mX) eX) /\
    (val (Zpos mX) eX <= a -> val (Zpos mX) eX <= val (Zpos m') e').

(** The outcome of rounding a positive value to sign [s]. *)
Definition rounded_pos (s : bool) (a : Z) (r : spec_float) : Prop :=
  exists m' e', canonical m' e' = true /\ sandwich a m' e' /\
    r = if e' <=? 971 then S754_finite s m' e' else S754_infinity s.

(** [r] is the exact value [a] (in units of [2^-1074]) rounded. *)
Definition rounded (a : Z) (r : spec_float) : Prop :=
  match a with
  | Z0 => r = S754_zero false
  | Zpos _ => rounded_pos false a r
  | Zneg _ => rounded_pos true (- a) r
  end.

(** The record reached from mantissa [m] and inexactness flag [f] after
    [k] one-bit shifts. *)
Definition shifted (m : Z) (f : bool) (k : Z) (x : shr_record) : Prop :=
  shr_m x = m / 2 ^ k /\
  (shr_r x || shr_s x = f || negb (m mod 2 ^ k =? 0)).

Definition loc_flag (l : location) : bool :=
  match l with loc_Exact => false | _ => true end.

(** The second half of [binary_round_aux]: renormalise after rounding and
    test for overflow. *)
Definition finish (s : bool) (m2 e1 : Z) : spec_float :=
  let '(mrs'', e'') := shr_fexp 53 1024 m2 e1 loc_Exact in
  match shr_m mrs'' with
  | Z0 => S754_zero s
  | Zpos m => if e'' <=? 971 then S754_finite s m e'' else S754_infinity s
  | _ => S754_nan
  end.

(** Zero, infinity or a finite number of sign [s]. *)
Definition signed_class (s : bool) (r : spec_float) : Prop :=
  r = S754_zero s \/ r = S754_infinity s \/
  exists m e, r = S754_finite s m e /\ -1074 <= e.

(** Zero or a finite number of sign [s]. *)
Definition zero_or_finite (s : bool) (r : spec_float) : Prop :=
  r = S754_zero s \/ exists m e, r = S754_finite s m e /\ -1074 <= e.

(** A NaN, or a number that is not negative. *)
Definition nonneg_or_nan (d : double) : Prop :=
  match d with
  | S754_nan => True
  | S754_zero _ => True
  | S754_infinity s => s = false
  | S754_finite s _ e => s = false /\ -1074 <= e
  end.

(** A level that is zero, positive or [+inf]. *)
Definition nonneg_class (b : double) : Prop :=
  b = d0 \/ b = S754_infinity false \/
  exists m e, b = S754_finite false m e /\ -1074 <= e.

End B64.
Import B64.

(** ** leaking_bucket.cpp *)

Module LeakyBucket.

Record t : Type := mk {
  capacity : Z;      (* const int capacity *)
  leakRate : Z;      (* int leakRate *)
  bucket : double;   (* double bucket *)
  last_ts : Z        (* int64_t last_ts *)
}.

(** [LeakyBucket(int capacity, int leakRate)]: the initialiser list only;
    the body is empty and nothing is checked. *)
Definition LeakyBucket (capacity leakRate : Z) : t :=
  mk capacity leakRate (d_of_Z 0) (-1).

Definition construct (capacity leakRate : Z) : construction t :=
  Constructed (LeakyBucket capacity leakRate).

(** "Try to add this request": the block that ends both paths of
    [allow]. *)
Definition add_request (s : t) : bool * t :=
  if dle (dadd (bucket s) d1) (d_of_Z (capacity s))
  then (true, mk (capacity s) (leakRate s) (dadd (bucket s) d1) (last_ts s))
  else (false, s).

(** The elapsed milliseconds, clamped at zero. *)
Definition delta_ms (s : t) (ts_ms : Z) : Z :=
  let d := to_long (ts_ms - last_ts s) in
  if d <? 0 then 0 else d.

Definition drain (s : t) (ts_ms : Z) : double :=
  dmul (d_of_Z (delta_ms s ts_ms)) (ddiv (d_of_Z (leakRate s)) d1000).

(** [bool allow(int64_t ts_ms)]. *)
Definition allow (s : t) (ts_ms : Z) : bool * t :=
  if last_ts s =? -1 then
    add_request (mk (capacity s) (leakRate s) (bucket s) ts_ms)
  else
    let b := std_max d0 (dsub (bucket s) (drain s ts_ms)) in
    add_request (mk (capacity s) (leakRate s) b ts_ms).

(** A sequence of calls, oldest first, with the returned values. *)
Fixpoint run (s : t) (tss : list Z) : list bool * t :=
  match tss with
  | [] => ([], s)
  | ts :: tss' =>
      let (r, s1) := allow s ts in
      let (rs, s2) := run s1 tss' in
      (r :: rs, s2)
  end.

(** The level is a valid number between zero and the capacity. *)
Definition bounded_level (s : t) : Prop :=
  finite_valid (bucket s) = true /\
  0 <= SFval (bucket s) <= capacity s * 2 ^ 1074.

End LeakyBucket.

(** ** token_bucket.cpp *)

Module TokenBucket.

Record t : Type := mk {
  capacity : Z;         (* const int capacity *)
  tokens : double;      (* double tokens *)
  refillRate : Z;       (* int refillRate *)
  lastRefillTime : Z    (* int lastRefillTime *)
}.

(** [TokenBucket(int capacity, int refillRate)]. *)
Definition TokenBucket (capacity refillRate : Z) : t :=
  mk capacity (d_of_Z capacity) refillRate 0.

Definition construct (capacity refillRate : Z) : construction t :=
  Constructed (TokenBucket capacity refillRate).

(** [long timePassed = now - lastRefillTime]. *)
Definition timePassed (s : t) (now : Z) : Z :=
  to_long (now - lastRefillTime s).

(** [double earned = timePassed * (refillRate/60)]: [refillRate/60] is a
    division of two [int]s, truncating towards zero; the product is a
    [long], converted to [double] afterwards. *)
Definition earned (s : t) (now : Z) : double :=
  d_of_Z (to_long (timePassed s now * (refillRate s ÷ 60))).

(** [bool isAllowable()], [now] being the value read from the clock. *)
Definition isAllowable (s : t) (now : Z) : bool * t :=
  let tk := std_min (d_of_Z (capacity s)) (dadd (tokens s) (earned s now)) in
  if dge tk d1
  then (true, mk (capacity s) (dsub tk d1) (refillRate s) (to_int now))
  else (false, mk (capacity s) tk (refillRate s) (lastRefillTime s)).

(** A sequence of calls; the clock reads [nows] at them, oldest first. *)
Fixpoint run (s : t) (nows : list Z) : list bool * t :=
  match nows with
  | [] => ([], s)
  | now :: nows' =>
      let (r, s1) := isAllowable s now in
      let (rs, s2) := run s1 nows' in
      (r :: rs, s2)
  end.

(** Readings of the steady clock, oldest first, after the reading [t0]:
    the clock never goes back, and its values (seconds since its epoch)
    fit the [int] in which the class stores them. *)
Fixpoint steady (t0 : Z) (nows : list Z) : Prop :=
  match nows with
  | [] => True
  | now :: nows' => t0 <= now < 2 ^ 31 /\ steady now nows'
  end.

(** The bucket holds an integer number of tokens within its capacity. *)
Definition whole_tokens (s : t) : Prop :=
  exists j, tokens s = d_of_Z j /\ 0 <= j <= capacity s.

(** Tokens below a capacity [c]: [-inf], or a valid number at most [c]. *)
Definition low_tokens (c : Z) (x : double) : Prop :=
  x = S754_infinity true \/
  (finite_valid x = true /\ SFval x <= c * 2 ^ 1074).

End TokenBucket.

(** ** The level, as the program's own comparisons see it *)


(** ** Views of a run *)

(** The number of calls of a run that were allowed. *)
Definition granted (rs : list bool) : Z := Z.of_nat (count_occ bool_dec rs true).

(** The token bucket as a run under its steady clock leaves it, [t0] being
    the last value read: parameters within [int], a rate that is not
    negative, a whole number of tokens, and a last refill not after [t0]. *)
Definition settled (s : TokenBucket.t) (t0 : Z) : Prop :=
  in_int (TokenBucket.capacity s) /\ in_int (TokenBucket.refillRate s) /\
  0 <= TokenBucket.refillRate s /\ TokenBucket.whole_tokens s /\
  0 <= TokenBucket.lastRefillTime s <= t0.

(** The level on which [LeakyBucket::allow] tries to add the request: the
    level as it is on a first call, the level after the leak otherwise. *)
Definition drained (s : LeakyBucket.t) (ts : Z) : double :=
  if LeakyBucket.last_ts s =? -1 then LeakyBucket.bucket s
  else std_max d0 (dsub (LeakyBucket.bucket s) (LeakyBucket.drain s ts)).

(** ** Facts on binary64 arithmetic *)

Module B64Facts.

(** *** Wrapped integers *)

Lemma pow2_pos k : 0 <= k -> 0 < 2 ^ k.
Proof. intros. apply Z.pow_pos_nonneg; lia. Qed.

Lemma wrap_small w z : 0 < w -> - 2 ^ (w - 1) <= z < 2 ^ (w - 1) -> wrap w z = z.
Proof.
  intros Hw Hz. unfold wrap.
  replace (2 ^ w) with (2 * 2 ^ (w - 1)).
  - rewrite Z.mod_small; lia.
  - replace w with (Z.succ (w - 1)) at 2 by lia. rewrite Z.pow_succ_r; lia.
Qed.

Lemma wrap_range w z : 0 < w -> - 2 ^ (w - 1) <= wrap w z < 2 ^ (w - 1).
Proof.
  intros Hw. unfold wrap.
  assert (E : 2 ^ w = 2 * 2 ^ (w - 1)).
  { replace w with (Z.succ (w - 1)) at 1 by lia. rewrite Z.pow_succ_r; lia. }
  assert (0 < 2 ^ (w - 1)) by (apply pow2_pos; lia).
  pose proof (Z.mod_pos_bound (z + 2 ^ (w - 1)) (2 ^ w) ltac:(lia)). lia.
Qed.

Lemma to_long_small z : in_long z -> to_long z = z.
Proof. intros H. apply wrap_small; [lia|exact H]. Qed.

Lemma to_int_small z : in_int z -> to_int z = z.
Proof. intros H. apply wrap_small; [lia|exact H]. Qed.

(** *** Digits, exponents and canonical form *)

Lemma digits2_size p : digits2_pos p = Pos.size p.
Proof. induction p; simpl; congruence. Qed.

Lemma dg_bounds p : 2 ^ (dg p - 1) <= Zpos p < 2 ^ dg p.
Proof.
  unfold dg. rewrite digits2_size.
  pose proof (Pos.size_gt p) as Hgt. pose proof (Pos.size_le p) as Hle.
  apply Pos2Z.pos_lt_pos in Hgt. apply Pos2Z.pos_le_pos in Hle.
  rewrite Pos2Z.inj_pow in Hgt, Hle.
  change (Z.pos p~0) with (2 * Z.pos p) in Hle.
  split; [|exact Hgt].
  assert (0 < Z.pos (Pos.size p)) by lia.
  replace (Z.pos (Pos.size p)) with (Z.succ (Z.pos (Pos.size p) - 1)) in Hle by lia.
  rewrite Z.pow_succ_r in Hle by lia. lia.
Qed.

Lemma dg_pos p : 1 <= dg p.
Proof. unfold dg. lia. Qed.

Lemma dg_le p d : Zpos p < 2 ^ d -> dg p <= d.
Proof.
  intros H. destruct (Z_lt_le_dec d (dg p)) as [Hlt|]; [|assumption].
  exfalso. pose proof (dg_bounds p) as [Hb _].
  assert (2 ^ d <= 2 ^ (dg p - 1)); [|lia].
  destruct (Z_lt_le_dec d 0).
  - rewrite Z.pow_neg_r in H by assumption. lia.
  - apply Z.pow_le_mono_r; lia.
Qed.

Lemma dg_ge p d : 2 ^ (d - 1) <= Zpos p -> d <= dg p.
Proof.
  intros H. destruct (Z_lt_le_dec (dg p) d) as [Hlt|]; [|assumption].
  exfalso. pose proof (dg_bounds p) as [_ Hb]. pose proof (dg_pos p).
  assert (2 ^ dg p <= 2 ^ (d - 1)); [|lia].
  apply Z.pow_le_mono_r; lia.
Qed.

Lemma Zdigits2_bound a d : 0 <= a < 2 ^ d -> 0 <= Zdigits2 a <= d.
Proof.
  intros [Ha Hd]. destruct a as [|p|p]; try lia; simpl.
  - split; [lia|]. destruct (Z_lt_le_dec d 0); [|assumption].
    rewrite Z.pow_neg_r in Hd by assumption. lia.
  - fold (dg p). pose proof (dg_pos p). split; [lia|]. now apply dg_le.
Qed.

Lemma Zdigits2_lt a : 0 <= a -> a + 1 < 2 ^ (Zdigits2 a + 1).
Proof.
  intros Ha. destruct a as [|p|p]; try lia; [reflexivity|].
  simpl Zdigits2. fold (dg p). pose proof (dg_bounds p) as [_ H]. pose proof (dg_pos p).
  rewrite Z.pow_add_r by lia. change (2 ^ 1) with 2. lia.
Qed.

Lemma fexp_eq e : fexp 53 1024 e = Z.max (e - 53) (-1074).
Proof. reflexivity. Qed.

Lemma fexp_ge e : -1074 <= fexp 53 1024 e.
Proof. rewrite fexp_eq. lia. Qed.

Lemma fexp_mono a b : a <= b -> fexp 53 1024 a <= fexp 53 1024 b.
Proof. rewrite !fexp_eq. lia. Qed.

Lemma canonical_iff m e :
  canonical m e = true <-> e = Z.max (dg m + e - 53) (-1074).
Proof.
  unfold canonical, canonical_mantissa. rewrite fexp_eq, Z.eqb_eq.
  unfold dg. lia.
Qed.

Lemma bounded_iff m e :
  bounded 53 1024 m e = true <-> canonical m e = true /\ e <= 971.
Proof.
  unfold bounded. rewrite andb_true_iff, Z.leb_le. reflexivity.
Qed.

Lemma val_shift m e k :
  -1074 <= e -> 0 <= k -> val (m * 2 ^ k) e = val m (e + k).
Proof.
  intros. unfold val.
  replace (e + k + 1074) with (k + (e + 1074)) by lia.
  rewrite (Z.pow_add_r 2 k (e + 1074)) by lia. ring.
Qed.

Lemma val_pos m e : -1074 <= e -> 0 < val (Zpos m) e.
Proof. intros. unfold val. pose proof (pow2_pos (e + 1074)). nia. Qed.

Lemma val_add a b e : val (a + b) e = val a e + val b e.
Proof. unfold val. ring. Qed.

Lemma val_sub a b e : val (a - b) e = val a e - val b e.
Proof. unfold val. ring. Qed.

Lemma val_cond_Zopp s a e : val (cond_Zopp s a) e = cond_Zopp s (val a e).
Proof. destruct s; unfold val; simpl; ring. Qed.

Lemma val_0 k : val k 0 = k * 2 ^ 1074.
Proof. reflexivity. Qed.

Lemma canonical_min_exp m e : canonical m e = true -> -1074 <= e.
Proof. rewrite canonical_iff. lia. Qed.

Lemma bounded_min_exp m e : bounded 53 1024 m e = true -> -1074 <= e.
Proof. intros H. apply bounded_iff in H as [H _]. now apply canonical_min_exp in H. Qed.

Lemma canonical_normal m e : canonical m e = true -> -1074 < e -> 2 ^ 52 <= Zpos m.
Proof.
  rewrite canonical_iff. intros H He.
  assert (Hd : dg m = 53) by lia.
  pose proof (dg_bounds m) as [Hb _]. now rewrite Hd in Hb.
Qed.

(** Numbers in canonical form are ordered by exponent, then mantissa. *)
Lemma canonical_lt_exp m1 e1 m2 e2 :
  canonical m1 e1 = true -> canonical m2 e2 = true ->
  e1 < e2 -> val (Zpos m1) e1 < val (Zpos m2) e2.
Proof.
  rewrite !canonical_iff. intros H1 H2 Hlt.
  assert (Hd1 : dg m1 <= 53) by lia.
  assert (Hd2 : dg m2 = 53) by lia.
  pose proof (dg_bounds m1) as [_ Hb1]. pose proof (dg_bounds m2) as [Hb2 _].
  rewrite Hd2 in Hb2. simpl (53 - 1) in Hb2.
  assert (Zpos m1 < 2 ^ 53).
  { eapply Z.lt_le_trans; [exact Hb1|]. apply Z.pow_le_mono_r; lia. }
  replace e2 with (e1 + (e2 - e1)) by lia.
  rewrite <- val_shift by lia.
  unfold val. apply Z.mul_lt_mono_pos_r; [apply pow2_pos; lia|].
  assert (2 ^ 1 <= 2 ^ (e2 - e1)) by (apply Z.pow_le_mono_r; lia).
  change (2 ^ 1) with 2 in *. change (2 ^ 53) with (2 * 2 ^ 52) in *. nia.
Qed.

Lemma canonical_compare m1 e1 m2 e2 :
  canonical m1 e1 = true -> canonical m2 e2 = true ->
  (val (Zpos m1) e1 ?= val (Zpos m2) e2) =
  match e1 ?= e2 with
  | Lt => Lt
  | Gt => Gt
  | Eq => Pos.compare_cont Eq m1 m2
  end.
Proof.
  intros H1 H2. destruct (Z.compare_spec e1 e2) as [He|He|He].
  - subst e2. change (Pos.compare_cont Eq m1 m2) with (Zpos m1 ?= Zpos m2).
    apply canonical_iff in H1.
    unfold val. pose proof (pow2_pos (e1 + 1074)).
    destruct (Z.compare_spec (Zpos m1) (Zpos m2)) as [Hm|Hm|Hm].
    + rewrite Hm. apply Z.compare_refl.
    + apply Z.compare_lt_iff. apply Z.mul_lt_mono_pos_r; lia.
    + apply Z.compare_gt_iff. apply Z.mul_lt_mono_pos_r; lia.
  - apply Z.compare_lt_iff. now apply canonical_lt_exp.
  - apply Z.compare_gt_iff. now apply canonical_lt_exp.
Qed.

Lemma canonical_le_iff m1 e1 m2 e2 :
  canonical m1 e1 = true -> canonical m2 e2 = true ->
  (val (Zpos m1) e1 <= val (Zpos m2) e2 <->
   e1 < e2 \/ (e1 = e2 /\ Zpos m1 <= Zpos m2)).
Proof.
  intros H1 H2. pose proof (canonical_compare m1 e1 m2 e2 H1 H2) as Hc.
  unfold Z.le at 1. rewrite Hc.
  destruct (Z.compare_spec e1 e2).
  - change (Pos.compare_cont Eq m1 m2) with (Zpos m1 ?= Zpos m2).
    split; intros H'; [right; split; [assumption|exact H']|].
    destruct H' as [|[_ H']]; [lia|exact H'].
  - split; [intros _; now left|discriminate].
  - split; [intros H'; now elim H'|lia].
Qed.

Lemma canonical_above m e f :
  canonical m e = true -> -1074 <= f < e -> 2 ^ 53 * 2 ^ (f + 1074) <= val (Zpos m) e.
Proof.
  intros Hc Hf. pose proof (canonical_normal m e Hc ltac:(lia)) as Hm.
  unfold val. replace (e + 1074) with ((e - f) + (f + 1074)) by lia.
  rewrite (Z.pow_add_r 2 (e - f) (f + 1074)) by lia.
  assert (2 ^ 1 <= 2 ^ (e - f)) by (apply Z.pow_le_mono_r; lia).
  pose proof (pow2_pos (f + 1074) ltac:(lia)).
  change (2 ^ 1) with 2 in *. change (2 ^ 53) with (2 * 2 ^ 52) in *.
  assert (2 * 2 ^ 52 <= Zpos m * 2 ^ (e - f)) by nia. nia.
Qed.

Lemma canonical_unique m1 e1 m2 e2 :
  canonical m1 e1 = true -> canonical m2 e2 = true ->
  val (Zpos m1) e1 = val (Zpos m2) e2 -> m1 = m2 /\ e1 = e2.
Proof.
  intros H1 H2 Hv.
  pose proof (canonical_le_iff m1 e1 m2 e2 H1 H2) as A.
  pose proof (canonical_le_iff m2 e2 m1 e1 H2 H1) as B.
  assert (e1 = e2 /\ Zpos m1 = Zpos m2) as [-> E] by lia.
  split; [congruence|reflexivity].
Qed.

(** *** Shifting a mantissa to the right *)

Lemma shr_1_spec m r s :
  0 <= m -> shr_1 (Build_shr_record m r s) = Build_shr_record (m / 2) (Z.odd m) (r || s).
Proof.
  intros Hm. rewrite <- Z.div2_div.
  destruct m as [|[p|p|]|]; try reflexivity. lia.
Qed.

Lemma shifted_step m f k x :
  0 <= m -> 0 <= k -> shifted m f k x -> shifted m f (k + 1) (shr_1 x).
Proof.
  intros Hm Hk [Hq Hf]. destruct x as [mx r s]. simpl in Hq, Hf.
  assert (H2k : 0 < 2 ^ k) by now apply pow2_pos.
  assert (0 <= mx) by (subst mx; apply Z.div_pos; lia).
  rewrite shr_1_spec by assumption. unfold shifted. simpl.
  rewrite Z.pow_add_r by lia. change (2 ^ 1) with 2.
  split.
  - subst mx. rewrite Z.div_div by lia. reflexivity.
  - rewrite Hf. rewrite Z.rem_mul_r by lia. rewrite <- Hq.
    pose proof (Z.mod_pos_bound m (2 ^ k) H2k).
    pose proof (Z.mod_pos_bound mx 2 ltac:(lia)).
    rewrite Zodd_mod.
    destruct f; simpl; [now rewrite orb_true_r|].
    destruct (Z.eqb_spec (m mod 2 ^ k) 0) as [E|E]; simpl.
    + rewrite E, orb_false_r. simpl.
      destruct (Z.eqb_spec (mx mod 2) 1); destruct (Z.eqb_spec (2 ^ k * (mx mod 2)) 0); try reflexivity; nia.
    + rewrite orb_true_r. symmetry. apply negb_true_iff, Z.eqb_neq. nia.
Qed.

Lemma shifted_iter m f p : 0 <= m ->
  forall k x, 0 <= k -> shifted m f k x ->
  shifted m f (k + Zpos p) (iter_pos shr_1 p x).
Proof.
  intros Hm. induction p as [p IH|p IH|]; intros k x Hk Hx; simpl.
  - replace (k + Z.pos p~1) with (k + 1 + Z.pos p + Z.pos p) by lia.
    apply IH; [lia|]. apply IH; [lia|]. now apply shifted_step.
  - replace (k + Z.pos p~0) with (k + Z.pos p + Z.pos p) by lia.
    apply IH; [lia|]. now apply IH.
  - now apply shifted_step.
Qed.

Lemma shr_spec m f x e p :
  0 <= m -> shr_m x = m -> shr_r x || shr_s x = f ->
  exists x', shr x e (Zpos p) = (x', e + Zpos p) /\ shifted m f (Zpos p) x'.
Proof.
  intros Hm Hx Hf. eexists. split; [reflexivity|].
  change (Zpos p) with (0 + Zpos p) at 1.
  apply shifted_iter; [assumption|lia|].
  unfold shifted. change (2 ^ 0) with 1. rewrite Z.div_1_r, Z.mod_1_r. simpl.
  now rewrite orb_false_r.
Qed.

Lemma shr_record_of_loc_flag m l :
  shr_m (shr_record_of_loc m l) = m /\
  shr_r (shr_record_of_loc m l) || shr_s (shr_record_of_loc m l) = loc_flag l.
Proof. destruct l as [|[]]; simpl; auto. Qed.

Lemma shr_fexp_noshift m e l :
  fexp 53 1024 (Zdigits2 m + e) <= e ->
  shr_fexp 53 1024 m e l = (shr_record_of_loc m l, e).
Proof.
  intros H. unfold shr_fexp.
  destruct (fexp 53 1024 (Zdigits2 m + e) - e) eqn:E; try reflexivity. lia.
Qed.

Lemma shr_fexp_shift m e l :
  0 <= m -> e < fexp 53 1024 (Zdigits2 m + e) ->
  exists x', shr_fexp 53 1024 m e l = (x', fexp 53 1024 (Zdigits2 m + e)) /\
             shifted m (loc_flag l) (fexp 53 1024 (Zdigits2 m + e) - e) x'.
Proof.
  intros Hm H. unfold shr_fexp.
  destruct (fexp 53 1024 (Zdigits2 m + e) - e) eqn:E; try lia.
  destruct (shr_record_of_loc_flag m l) as [H1 H2].
  destruct (shr_spec m (loc_flag l) (shr_record_of_loc m l) e p Hm H1 H2) as (x' & Hs & Hx).
  exists x'. split; [|assumption]. rewrite Hs. f_equal. lia.
Qed.

Lemma shr_fexp_cases m e l d :
  0 <= m < 2 ^ d ->
  exists x e', shr_fexp 53 1024 m e l = (x, e') /\
    0 <= shr_m x <= m /\ (l = loc_Exact -> fexp 53 1024 (Zdigits2 m + e) <= e -> shr_m x = m) /\
    -1074 <= e' <= Z.max e (fexp 53 1024 (d + e)).
Proof.
  intros Hm. pose proof (Zdigits2_bound m d Hm) as Hd.
  pose proof (fexp_mono (Zdigits2 m + e) (d + e) ltac:(lia)) as Hmono.
  pose proof (fexp_ge (Zdigits2 m + e)) as Hge.
  destruct (Z_lt_le_dec e (fexp 53 1024 (Zdigits2 m + e))) as [Hlt|Hle].
  - destruct (shr_fexp_shift m e l ltac:(lia) Hlt) as (x & Hs & Hq & _).
    exists x, (fexp 53 1024 (Zdigits2 m + e)). split; [exact Hs|].
    assert (0 < 2 ^ (fexp 53 1024 (Zdigits2 m + e) - e)) by (apply pow2_pos; lia).
    repeat split; try lia.
    + rewrite Hq. apply Z.div_pos; lia.
    + rewrite Hq. apply Z.div_le_upper_bound; [lia|]. nia.
  - exists (shr_record_of_loc m l), e. split; [now apply shr_fexp_noshift|].
    destruct (shr_record_of_loc_flag m l) as [-> _]. repeat split; lia.
Qed.

Lemma round_nearest_even_cases x :
  round_nearest_even (shr_m x) (loc_of_shr_record x) = shr_m x \/
  (round_nearest_even (shr_m x) (loc_of_shr_record x) = shr_m x + 1 /\
   shr_r x || shr_s x = true).
Proof. destruct x as [m [] []]; simpl; destruct (Z.even m); auto. Qed.

(** *** Rounding *)

Lemma binary_round_aux_finish s m e l :
  binary_round_aux 53 1024 s m e l =
  let '(mrs', e') := shr_fexp 53 1024 m e l in
  finish s (round_nearest_even (shr_m mrs') (loc_of_shr_record mrs')) e'.
Proof. reflexivity. Qed.

Lemma finish_no_carry s p f :
  2 ^ 52 <= Zpos p < 2 ^ 53 -> -1074 <= f ->
  canonical p f = true /\
  finish s (Zpos p) f = if f <=? 971 then S754_finite s p f else S754_infinity s.
Proof.
  intros [Hlo Hhi] Hf.
  assert (Hd : dg p = 53).
  { apply Z.le_antisymm; [apply dg_le; assumption|apply dg_ge; assumption]. }
  split; [apply canonical_iff; lia|].
  unfold finish. rewrite shr_fexp_noshift.
  - reflexivity.
  - simpl Zdigits2. fold (dg p). rewrite fexp_eq. lia.
Qed.

Lemma finish_carry s f :
  -1074 <= f ->
  finish s (2 ^ 53) f =
  if f + 1 <=? 971 then S754_finite s (2 ^ 52) (f + 1) else S754_infinity s.
Proof.
  intros Hf. unfold finish, shr_fexp.
  replace (fexp 53 1024 (Zdigits2 (2 ^ 53) + f) - f) with 1.
  - reflexivity.
  - rewrite fexp_eq. change (Zdigits2 (2 ^ 53)) with 54. lia.
Qed.

Section RoundOff.

(** A mantissa [m] of [53 + n] bits at exponent [e]: the [n] low bits are
    shifted out, [q] is what stays, at exponent [f = e + n]. *)
Variables (m : positive) (e n : Z).
Hypothesis He : -1074 <= e.
Hypothesis Hn : 0 < n.
Hypothesis Hdg : dg m = 53 + n.

Let q := Zpos m / 2 ^ n.
Let f := e + n.

Lemma kept_bits : 2 ^ 52 <= q < 2 ^ 53.
Proof.
  pose proof (dg_bounds m) as [Hlo Hhi]. rewrite Hdg in Hlo, Hhi.
  replace (53 + n - 1) with (52 + n) in Hlo by lia.
  rewrite Z.pow_add_r in Hlo, Hhi by lia.
  assert (0 < 2 ^ n) by (apply pow2_pos; lia).
  split; [apply Z.div_le_lower_bound|apply Z.div_lt_upper_bound]; lia.
Qed.

Lemma val_kept k : val k f = k * 2 ^ n * 2 ^ (e + 1074).
Proof.
  unfold val, f. replace (e + n + 1074) with (n + (e + 1074)) by lia.
  rewrite (Z.pow_add_r 2 n (e + 1074)) by lia. ring.
Qed.

Lemma val_between :
  val q f <= val (Zpos m) e < val (q + 1) f /\
  (Zpos m mod 2 ^ n <> 0 -> val q f < val (Zpos m) e).
Proof.
  assert (H2n : 0 < 2 ^ n) by (apply pow2_pos; lia).
  assert (HP : 0 < 2 ^ (e + 1074)) by (apply pow2_pos; lia).
  pose proof (Z.div_mod (Zpos m) (2 ^ n) ltac:(lia)) as Hdm.
  pose proof (Z.mod_pos_bound (Zpos m) (2 ^ n) H2n) as Hrem.
  fold q in Hdm. rewrite !val_kept. unfold val.
  set (N := 2 ^ n) in *. set (P := 2 ^ (e + 1074)) in *.
  assert (Hm : q * N <= Zpos m < (q + 1) * N) by nia.
  split; [split|intros Hne].
  - apply Z.mul_le_mono_nonneg_r; lia.
  - apply Z.mul_lt_mono_pos_r; lia.
  - apply Z.mul_lt_mono_pos_r; [lia|]. nia.
Qed.

Lemma kept_canonical pq : Zpos pq = q -> canonical pq f = true.
Proof.
  intros E. pose proof kept_bits as Hq. rewrite <- E in Hq.
  apply canonical_iff.
  assert (dg pq = 53) by (apply Z.le_antisymm; [apply dg_le|apply dg_ge]; lia).
  unfold f. lia.
Qed.

(** No canonical number lies strictly between [q] and [q + 1] at [f]. *)
Lemma above_kept mX eX :
  canonical mX eX = true ->
  val q f < val (Zpos mX) eX -> val (q + 1) f <= val (Zpos mX) eX.
Proof.
  intros HX Hgt. pose proof kept_bits as Hq.
  destruct (Z_lt_le_dec f eX) as [Hfe|Hfe].
  - pose proof (canonical_above mX eX f HX ltac:(unfold f in *; lia)) as Hab.
    etransitivity; [|exact Hab]. unfold val.
    apply Z.mul_le_mono_nonneg_r; [apply Z.lt_le_incl, pow2_pos; unfold f|]; lia.
  - destruct q as [|pq|pq] eqn:Eq; try lia.
    pose proof (canonical_le_iff mX eX pq f HX (kept_canonical pq (eq_sym Eq))) as Hiff.
    assert (eX = f /\ Zpos pq < Zpos mX) as [-> Hm] by lia.
    unfold val. apply Z.mul_le_mono_nonneg_r;
      [apply Z.lt_le_incl, pow2_pos; unfold f|]; lia.
Qed.

Lemma below_next mX eX :
  canonical mX eX = true ->
  val (Zpos mX) eX < val (q + 1) f -> val (Zpos mX) eX <= val q f.
Proof.
  intros HX Hless. pose proof kept_bits as Hq.
  destruct q as [|pq|pq] eqn:Eq; try lia.
  apply (canonical_le_iff mX eX pq f HX (kept_canonical pq (eq_sym Eq))).
  destruct (Z_lt_le_dec eX f) as [Hfe|Hfe]; [now left|right].
  destruct (Z_lt_le_dec f eX) as [Hfe'|Hfe'].
  - pose proof (canonical_above mX eX f HX ltac:(unfold f in *; lia)) as Hab.
    exfalso. revert Hless. apply Z.le_ngt.
    etransitivity; [|exact Hab]. unfold val.
    apply Z.mul_le_mono_nonneg_r; [apply Z.lt_le_incl, pow2_pos; unfold f|]; lia.
  - assert (eX = f) by lia. subst eX. split; [reflexivity|].
    unfold val in Hless.
    pose proof (pow2_pos (f + 1074) ltac:(unfold f; lia)). nia.
Qed.

(** Whichever of [q] and [q + 1] the rounding picks (the second only when
    bits were lost), the number it yields is next to the exact value. *)
Lemma round_off s p2 :
  q <= Zpos p2 <= q + 1 -> (Zpos p2 = q + 1 -> Zpos m mod 2 ^ n <> 0) ->
  rounded_pos s (val (Zpos m) e) (finish s (Zpos p2) f).
Proof.
  intros Hp2 Hex. pose proof kept_bits as Hq.
  destruct val_between as [[Hqa Haq] Hne].
  assert (Hf : -1074 <= f) by (unfold f; lia).
  assert (Hsand : forall m' e', val (Zpos m') e' = val (Zpos p2) f ->
                    sandwich (val (Zpos m) e) m' e').
  { intros m' e' Hv mX eX HX. rewrite Hv.
    destruct (Z.eq_dec (Zpos p2) q) as [E|E].
    - rewrite E. split; [lia|]. intros Hle. apply below_next; [assumption|lia].
    - assert (E' : Zpos p2 = q + 1) by lia. rewrite E'.
      specialize (Hne (Hex E')).
      split; [|lia]. intros Hle. apply above_kept; [assumption|lia]. }
  destruct (Z_lt_le_dec (Zpos p2) (2 ^ 53)) as [Hlt53|Hge53].
  - destruct (finish_no_carry s p2 f ltac:(lia) Hf) as [Hc Hfin].
    exists p2, f. split; [assumption|]. split; [now apply Hsand|assumption].
  - assert (E : Zpos p2 = 2 ^ 53) by lia. rewrite E.
    rewrite finish_carry by assumption.
    exists (2 ^ 52)%positive, (f + 1). split; [|split; [|reflexivity]].
    + apply canonical_iff. change (dg (2 ^ 52)) with 53. lia.
    + apply Hsand. rewrite E. unfold val.
      replace (f + 1 + 1074) with (1 + (f + 1074)) by lia.
      rewrite (Z.pow_add_r 2 1 (f + 1074)) by lia.
      change (Z.pos (2 ^ 52)) with (2 ^ 52). change (2 ^ 53) with (2 ^ 52 * 2 ^ 1). ring.
Qed.

End RoundOff.

Lemma binary_round_aux_exact s m e :
  -1074 <= e -> e <= fexp 53 1024 (dg m + e) ->
  rounded_pos s (val (Zpos m) e) (binary_round_aux 53 1024 s (Zpos m) e loc_Exact).
Proof.
  intros He Hf. rewrite binary_round_aux_finish.
  destruct (Z.eq_dec e (fexp 53 1024 (dg m + e))) as [Heq|Hne].
  - (* the mantissa already fits *)
    rewrite shr_fexp_noshift by (change (Zdigits2 (Zpos m)) with (dg m); lia).
    simpl. unfold finish.
    rewrite shr_fexp_noshift by (change (Zdigits2 (Zpos m)) with (dg m); lia).
    simpl. exists m, e. split; [|split].
    + apply canonical_iff. rewrite fexp_eq in Heq. exact Heq.
    + intros mX eX _. split; auto.
    + reflexivity.
  - (* low bits are shifted out *)
    assert (Hlt : e < fexp 53 1024 (Zdigits2 (Zpos m) + e))
      by (change (Zdigits2 (Zpos m)) with (dg m); lia).
    destruct (shr_fexp_shift (Zpos m) e loc_Exact ltac:(lia) Hlt)
      as (x1 & Hs1 & Hq & Hfl).
    rewrite Hs1. change (Zdigits2 (Zpos m)) with (dg m) in *.
    rewrite fexp_eq in *. simpl loc_flag in Hfl. rewrite orb_false_l in Hfl.
    set (n := Z.max (dg m + e - 53) (-1074) - e) in *.
    assert (Hn : 0 < n) by lia.
    assert (Hdg : dg m = 53 + n) by lia.
    replace (Z.max (dg m + e - 53) (-1074)) with (e + n) by lia.
    pose proof (kept_bits m e n Hn Hdg) as Hq53. rewrite <- Hq in Hq53.
    destruct (round_nearest_even_cases x1) as [Hr|[Hr Hfl']]; rewrite Hr.
    + destruct (shr_m x1) as [|pq|pq] eqn:Eq; try lia.
      apply (round_off m e n He Hn Hdg); rewrite <- Hq; lia.
    + destruct (shr_m x1 + 1) as [|pq|pq] eqn:Eq; try lia.
      apply (round_off m e n He Hn Hdg); rewrite <- Hq; [lia|].
      intros _. rewrite Hfl' in Hfl. symmetry in Hfl.
      apply negb_true_iff, Z.eqb_neq in Hfl. exact Hfl.
Qed.

Lemma iter_xO_spec m d :
  Zpos (Pos.iter xO m d) = Zpos m * 2 ^ Zpos d /\
  dg (Pos.iter xO m d) = dg m + Zpos d.
Proof.
  induction d as [|d [IH1 IH2]] using Pos.peano_ind.
  - simpl. unfold dg. simpl. lia.
  - rewrite Pos.iter_succ. rewrite Pos2Z.inj_succ, Z.pow_succ_r by lia.
    split.
    + change (Z.pos (Pos.iter xO m d)~0) with (2 * Z.pos (Pos.iter xO m d)).
      rewrite IH1. ring.
    + unfold dg in *. simpl digits2_pos. rewrite Pos2Z.inj_succ. lia.
Qed.

Lemma shl_align_spec m e e' :
  -1074 <= e -> -1074 <= e' ->
  snd (shl_align m e e') = Z.min e e' /\
  val (Zpos (fst (shl_align m e e'))) (snd (shl_align m e e')) = val (Zpos m) e /\
  dg (fst (shl_align m e e')) + snd (shl_align m e e') = dg m + e.
Proof.
  intros He He'. unfold shl_align.
  destruct (e' - e) as [|d|d] eqn:E; cbn [fst snd]; try (repeat split; lia).
  destruct (iter_xO_spec m d) as [H1 H2].
  repeat split; try lia.
  rewrite H1, val_shift by lia. f_equal. lia.
Qed.

Lemma binary_round_spec s m e :
  -1074 <= e ->
  rounded_pos s (val (Zpos m) e) (binary_round 53 1024 s m e).
Proof.
  intros He. unfold binary_round.
  pose proof (shl_align_spec m e (fexp 53 1024 (Zpos (digits2_pos m) + e)) He (fexp_ge _))
    as (H1 & H2 & H3).
  destruct (shl_align m e (fexp 53 1024 (Zpos (digits2_pos m) + e))) as [mz ez].
  cbn [fst snd] in H1, H2, H3. rewrite <- H2.
  apply binary_round_aux_exact.
  - pose proof (fexp_ge (Zpos (digits2_pos m) + e)). lia.
  - rewrite H3. unfold dg. lia.
Qed.

(** A mantissa of at most 53 bits is not rounded. *)
Lemma binary_round_exact s m e :
  -1074 <= e -> dg m <= 53 ->
  exists mz ez, canonical mz ez = true /\ val (Zpos mz) ez = val (Zpos m) e /\
    ez <= e /\
    binary_round 53 1024 s m e =
    if ez <=? 971 then S754_finite s mz ez else S754_infinity s.
Proof.
  intros He Hd. unfold binary_round.
  pose proof (shl_align_spec m e (fexp 53 1024 (Zpos (digits2_pos m) + e)) He (fexp_ge _))
    as (H1 & H2 & H3).
  destruct (shl_align m e (fexp 53 1024 (Zpos (digits2_pos m) + e))) as [mz ez].
  cbn [fst snd] in H1, H2, H3. fold (dg m) in *. rewrite fexp_eq in H1.
  assert (Hc : ez = fexp 53 1024 (dg mz + ez)) by (rewrite H3, fexp_eq; lia).
  exists mz, ez. split; [|split; [|split]].
  - apply canonical_iff. rewrite fexp_eq in Hc. exact Hc.
  - exact H2.
  - lia.
  - rewrite binary_round_aux_finish.
    rewrite shr_fexp_noshift by (change (Zdigits2 (Zpos mz)) with (dg mz); lia).
    simpl. unfold finish.
    rewrite shr_fexp_noshift by (change (Zdigits2 (Zpos mz)) with (dg mz); lia).
    reflexivity.
Qed.

Lemma rounded_of_pos a r : 0 < a -> rounded_pos false a r -> rounded a r.
Proof. destruct a; simpl; auto; lia. Qed.

Lemma rounded_of_neg a r : a < 0 -> rounded_pos true (- a) r -> rounded a r.
Proof. destruct a; simpl; auto; lia. Qed.

Lemma rounded_pos_inv a r : 0 < a -> rounded a r -> rounded_pos false a r.
Proof. destruct a; simpl; auto; lia. Qed.

Lemma binary_normalize_spec z e :
  -1074 <= e -> rounded (val z e) (binary_normalize 53 1024 z e false).
Proof.
  intros He. destruct z as [|p|p]; simpl binary_normalize.
  - reflexivity.
  - apply rounded_of_pos; [now apply val_pos|now apply binary_round_spec].
  - pose proof (val_pos p e He).
    assert (E : val (Zneg p) e = - val (Zpos p) e) by (unfold val; lia).
    apply rounded_of_neg; [lia|]. rewrite E, Z.opp_involutive.
    now apply binary_round_spec.
Qed.

Lemma binary_round_aux_class s m e l d :
  0 <= m -> m + 1 < 2 ^ d ->
  binary_round_aux 53 1024 s m e l = S754_zero s \/
  exists m' e',
    binary_round_aux 53 1024 s m e l =
      (if e' <=? 971 then S754_finite s m' e' else S754_infinity s) /\
    -1074 <= e' <=
      Z.max (Z.max e (fexp 53 1024 (d + e)))
            (fexp 53 1024 (d + Z.max e (fexp 53 1024 (d + e)))).
Proof.
  intros Hm Hd. rewrite binary_round_aux_finish.
  destruct (shr_fexp_cases m e l d ltac:(lia)) as (x1 & e1 & -> & Hx1 & _ & He1).
  set (m2 := round_nearest_even (shr_m x1) (loc_of_shr_record x1)).
  assert (Hm2 : 0 <= m2 < 2 ^ d).
  { unfold m2. destruct (round_nearest_even_cases x1) as [->|[-> _]]; lia. }
  unfold finish.
  destruct (shr_fexp_cases m2 e1 loc_Exact d Hm2) as (x2 & e2 & -> & Hx2 & _ & He2).
  pose proof (fexp_mono (d + e1) (d + Z.max e (fexp 53 1024 (d + e))) ltac:(lia)).
  destruct (shr_m x2) as [|p|p]; [now left| |lia].
  right. exists p, e2. split; [reflexivity|]. lia.
Qed.

Lemma binary_round_aux_signed s m e l :
  0 <= m -> signed_class s (binary_round_aux 53 1024 s m e l).
Proof.
  intros Hm.
  destruct (binary_round_aux_class s m e l (Zdigits2 m + 1) Hm (Zdigits2_lt m Hm))
    as [->|(m' & e' & -> & He' & _)]; [now left|].
  destruct (e' <=? 971); right; [right|now left].
  exists m', e'. auto.
Qed.

(** *** What a rounded value is *)

Lemma rp_class s a r :
  rounded_pos s a r ->
  r = S754_infinity s \/
  exists m e, r = S754_finite s m e /\ bounded 53 1024 m e = true.
Proof.
  intros (m & e & Hc & _ & ->). destruct (Z.leb_spec e 971); [right|now left].
  exists m, e. split; [reflexivity|]. apply bounded_iff. auto.
Qed.

Lemma rp_le s a r mX eX :
  rounded_pos s a r -> bounded 53 1024 mX eX = true -> a <= val (Zpos mX) eX ->
  exists m e, r = S754_finite s m e /\ bounded 53 1024 m e = true /\
              val (Zpos m) e <= val (Zpos mX) eX.
Proof.
  intros (m & e & Hc & Hs & ->) HX Ha. apply bounded_iff in HX as [HX HeX].
  destruct (Hs mX eX HX) as [Hle _]. specialize (Hle Ha).
  pose proof (canonical_le_iff m e mX eX Hc HX) as Hiff.
  assert (e <= 971) by lia.
  destruct (Z.leb_spec e 971); [|lia].
  exists m, e. split; [reflexivity|]. split; [|assumption].
  apply bounded_iff. auto.
Qed.

Lemma rp_ge s a r mX eX :
  rounded_pos s a r -> canonical mX eX = true -> val (Zpos mX) eX <= a ->
  r = S754_infinity s \/
  exists m e, r = S754_finite s m e /\ bounded 53 1024 m e = true /\
              val (Zpos mX) eX <= val (Zpos m) e.
Proof.
  intros (m & e & Hc & Hs & ->) HX Ha.
  destruct (Hs mX eX HX) as [_ Hge]. specialize (Hge Ha).
  destruct (Z.leb_spec e 971); [right|now left].
  exists m, e. split; [reflexivity|]. split; [|assumption].
  apply bounded_iff. auto.
Qed.

Lemma rp_exact s a r mX eX :
  rounded_pos s a r -> bounded 53 1024 mX eX = true -> val (Zpos mX) eX = a ->
  r = S754_finite s mX eX.
Proof.
  intros Hr HX Ha.
  destruct (rp_le s a r mX eX Hr HX ltac:(lia)) as (m & e & -> & Hb & Hle).
  apply bounded_iff in HX as [HX _].
  destruct (rp_ge s a _ mX eX Hr HX ltac:(lia)) as [|(m' & e' & E & _ & Hge)];
    [discriminate|].
  injection E as <- <-. apply bounded_iff in Hb as [Hb _].
  destruct (canonical_unique m e mX eX Hb HX ltac:(lia)) as [-> ->]. reflexivity.
Qed.

Lemma rounded_class a r :
  rounded a r ->
  r = d0 \/ (exists s, r = S754_infinity s) \/
  exists s m e, r = S754_finite s m e /\ bounded 53 1024 m e = true.
Proof.
  intros Hr. destruct a as [|p|p]; cbn [rounded] in Hr.
  - now left.
  - right. destruct (rp_class _ _ _ Hr) as [->|(m & e & -> & Hb)]; eauto 6.
  - right. destruct (rp_class _ _ _ Hr) as [->|(m & e & -> & Hb)]; eauto 6.
Qed.

(** *** Sums, differences and comparisons *)

Lemma SFadd_ff sx mx ex sy my ey :
  -1074 <= ex -> -1074 <= ey ->
  rounded (SFval (S754_finite sx mx ex) + SFval (S754_finite sy my ey))
          (SFadd 53 1024 (S754_finite sx mx ex) (S754_finite sy my ey)).
Proof.
  intros Hx Hy. unfold SFadd, SFsub, SFval.
  pose proof (shl_align_spec mx ex (Z.min ex ey) Hx ltac:(lia)) as (X1 & X2 & _).
  pose proof (shl_align_spec my ey (Z.min ex ey) Hy ltac:(lia)) as (Y1 & Y2 & _).
  destruct (shl_align mx ex (Z.min ex ey)) as [mx' ex'].
  destruct (shl_align my ey (Z.min ex ey)) as [my' ey'].
  cbn [fst snd] in *. subst ex' ey'.
  replace (Z.min ex (Z.min ex ey)) with (Z.min ex ey) in X2 by lia.
  replace (Z.min ey (Z.min ex ey)) with (Z.min ex ey) in Y2 by lia.
  rewrite <- X2, <- Y2, <- !val_cond_Zopp, <- val_add.
  apply binary_normalize_spec. lia.
Qed.

Lemma SFsub_ff sx mx ex sy my ey :
  -1074 <= ex -> -1074 <= ey ->
  rounded (SFval (S754_finite sx mx ex) - SFval (S754_finite sy my ey))
          (SFsub 53 1024 (S754_finite sx mx ex) (S754_finite sy my ey)).
Proof.
  intros Hx Hy. unfold SFadd, SFsub, SFval.
  pose proof (shl_align_spec mx ex (Z.min ex ey) Hx ltac:(lia)) as (X1 & X2 & _).
  pose proof (shl_align_spec my ey (Z.min ex ey) Hy ltac:(lia)) as (Y1 & Y2 & _).
  destruct (shl_align mx ex (Z.min ex ey)) as [mx' ex'].
  destruct (shl_align my ey (Z.min ex ey)) as [my' ey'].
  cbn [fst snd] in *. subst ex' ey'.
  replace (Z.min ex (Z.min ex ey)) with (Z.min ex ey) in X2 by lia.
  replace (Z.min ey (Z.min ex ey)) with (Z.min ex ey) in Y2 by lia.
  rewrite <- X2, <- Y2, <- !val_cond_Zopp, <- val_sub.
  apply binary_normalize_spec. lia.
Qed.

Lemma SFcompare_val x y :
  finite_valid x = true -> finite_valid y = true ->
  SFcompare x y = Some (SFval x ?= SFval y).
Proof.
  destruct x as [sx| | |sx mx ex], y as [sy| | |sy my ey];
    cbn [finite_valid SFcompare SFval]; try discriminate;
    intros Hx Hy; try reflexivity.
  - apply bounded_iff in Hy as [Hy _].
    pose proof (val_pos my ey (canonical_min_exp _ _ Hy)).
    destruct sy; cbn [cond_Zopp]; f_equal; symmetry;
      [apply Z.compare_gt_iff|apply Z.compare_lt_iff]; lia.
  - apply bounded_iff in Hx as [Hx _].
    pose proof (val_pos mx ex (canonical_min_exp _ _ Hx)).
    destruct sx; cbn [cond_Zopp]; f_equal; symmetry;
      [apply Z.compare_lt_iff|apply Z.compare_gt_iff]; lia.
  - apply bounded_iff in Hx as [Hx _]. apply bounded_iff in Hy as [Hy _].
    pose proof (val_pos mx ex (canonical_min_exp _ _ Hx)).
    pose proof (val_pos my ey (canonical_min_exp _ _ Hy)).
    f_equal. destruct sx, sy; cbn [cond_Zopp].
    + rewrite Z.compare_opp, (canonical_compare my ey mx ex Hy Hx).
      rewrite (Z.compare_antisym ey ex), (Pos.compare_cont_antisym).
      destruct (ey ?= ex); simpl; try reflexivity.
    + symmetry. apply Z.compare_lt_iff. lia.
    + symmetry. apply Z.compare_gt_iff. lia.
    + rewrite (canonical_compare mx ex my ey Hx Hy). reflexivity.
Qed.

Lemma dle_val x y :
  finite_valid x = true -> finite_valid y = true ->
  dle x y = (SFval x <=? SFval y).
Proof.
  intros Hx Hy. unfold dle, SFleb. rewrite (SFcompare_val x y Hx Hy).
  unfold Z.leb. destruct (SFval x ?= SFval y); reflexivity.
Qed.

Lemma dlt_val x y :
  finite_valid x = true -> finite_valid y = true ->
  dlt x y = (SFval x <? SFval y).
Proof.
  intros Hx Hy. unfold dlt, SFltb. rewrite (SFcompare_val x y Hx Hy).
  unfold Z.ltb. destruct (SFval x ?= SFval y); reflexivity.
Qed.

Lemma dadd_valid_or_not x y :
  finite_valid x = true -> finite_valid y = true ->
  forall s m e, dadd x y = S754_finite s m e -> bounded 53 1024 m e = true.
Proof.
  intros Hx Hy s m e E.
  destruct x as [sx| | |sx mx ex], y as [sy| | |sy my ey]; try discriminate.
  - destruct sx, sy; discriminate.
  - unfold dadd in E. cbn in E. injection E as <- <- <-. exact Hy.
  - unfold dadd in E. cbn in E. injection E as <- <- <-. exact Hx.
  - pose proof (SFadd_ff sx mx ex sy my ey (bounded_min_exp _ _ Hx) (bounded_min_exp _ _ Hy))
      as Hr.
    fold (dadd (S754_finite sx mx ex) (S754_finite sy my ey)) in Hr.
    destruct (rounded_class _ _ Hr) as [E'|[[s' E']|(s' & m' & e' & E' & Hbd)]];
      rewrite E' in E; try discriminate.
    injection E as _ <- <-. exact Hbd.
Qed.

(** *** Integers as doubles *)


Lemma d1_of_Z : d1 = d_of_Z 1.
Proof. reflexivity. Qed.

Lemma d1000_of_Z : d1000 = d_of_Z 1000.
Proof. reflexivity. Qed.

Lemma d_of_Z_rounded k : rounded (k * 2 ^ 1074) (d_of_Z k).
Proof. rewrite <- val_0. apply binary_normalize_spec. lia. Qed.

Lemma d_of_Z_pos p :
  Zpos p < 2 ^ 53 ->
  exists m e, d_of_Z (Zpos p) = S754_finite false m e /\
              bounded 53 1024 m e = true /\ e <= 0 /\
              val (Zpos m) e = Zpos p * 2 ^ 1074.
Proof.
  intros Hp.
  destruct (binary_round_exact false p 0 ltac:(lia) (dg_le _ _ Hp))
    as (m & e & Hc & Hv & He & Hr).
  exists m, e. unfold d_of_Z. simpl binary_normalize. rewrite Hr.
  destruct (Z.leb_spec e 971); [|lia].
  repeat split; try assumption. apply bounded_iff. split; [assumption|lia].
Qed.

Lemma d_of_Z_neg p :
  Zpos p < 2 ^ 53 ->
  exists m e, d_of_Z (Zneg p) = S754_finite true m e /\
              bounded 53 1024 m e = true /\ e <= 0 /\
              val (Zpos m) e = Zpos p * 2 ^ 1074.
Proof.
  intros Hp.
  destruct (binary_round_exact true p 0 ltac:(lia) (dg_le _ _ Hp))
    as (m & e & Hc & Hv & He & Hr).
  exists m, e. unfold d_of_Z. simpl binary_normalize. rewrite Hr.
  destruct (Z.leb_spec e 971); [|lia].
  repeat split; try assumption. apply bounded_iff. split; [assumption|lia].
Qed.

Lemma d_of_Z_valid k :
  - 2 ^ 53 < k < 2 ^ 53 ->
  finite_valid (d_of_Z k) = true /\ SFval (d_of_Z k) = k * 2 ^ 1074.
Proof.
  intros Hk. destruct k as [|p|p].
  - split; reflexivity.
  - destruct (d_of_Z_pos p ltac:(lia)) as (m & e & -> & Hb & _ & Hv).
    split; [exact Hb|]. cbn [SFval cond_Zopp]. exact Hv.
  - destruct (d_of_Z_neg p ltac:(lia)) as (m & e & -> & Hb & _ & Hv).
    split; [exact Hb|]. cbn [SFval cond_Zopp]. rewrite Hv. lia.
Qed.

Lemma d_of_Z_finite k :
  - 2 ^ 53 < k < 2 ^ 53 -> k <> 0 ->
  exists m e, d_of_Z k = S754_finite (k <? 0) m e /\
              bounded 53 1024 m e = true /\ e <= 0 /\
              val (Zpos m) e = Z.abs k * 2 ^ 1074.
Proof.
  intros Hk Nk. destruct k as [|p|p]; [easy| |].
  - apply d_of_Z_pos. lia.
  - apply d_of_Z_neg. lia.
Qed.

Lemma d_of_Z_class k :
  d_of_Z k = d0 \/ (exists s, d_of_Z k = S754_infinity s) \/
  exists s m e, d_of_Z k = S754_finite s m e /\ bounded 53 1024 m e = true.
Proof. apply (rounded_class (k * 2 ^ 1074)). apply d_of_Z_rounded. Qed.

Lemma d_of_Z_nonneg_class k :
  0 <= k -> d_of_Z k = S754_zero false \/ d_of_Z k = S754_infinity false \/
            exists m e, d_of_Z k = S754_finite false m e /\ bounded 53 1024 m e = true.
Proof.
  intros Hk. pose proof (d_of_Z_rounded k) as Hr.
  destruct (Z.eq_dec k 0) as [->|Nk]; [now left|].
  right. apply (rp_class false (k * 2 ^ 1074)). apply rounded_pos_inv; [lia|exact Hr].
Qed.

Lemma d_of_Z_nonneg k : 0 <= k < 2 ^ 53 -> nonneg_class (d_of_Z k).
Proof.
  intros Hk. destruct (Z.eq_dec k 0) as [->|Nk]; [now left|].
  destruct (d_of_Z_finite k ltac:(lia) Nk) as (m & e & E & Hb & _).
  replace (k <? 0) with false in E by (symmetry; apply Z.ltb_ge; lia).
  right. right. exists m, e. split; [exact E|now apply bounded_min_exp in Hb].
Qed.

Lemma d_of_Z_compare j k :
  - 2 ^ 53 < j < 2 ^ 53 -> - 2 ^ 53 < k < 2 ^ 53 ->
  SFcompare (d_of_Z j) (d_of_Z k) = Some (j ?= k).
Proof.
  intros Hj Hk.
  destruct (d_of_Z_valid j Hj) as [Vj Ej]. destruct (d_of_Z_valid k Hk) as [Vk Ek].
  rewrite (SFcompare_val _ _ Vj Vk), Ej, Ek. f_equal.
  symmetry. apply Zmult_compare_compat_r. reflexivity.
Qed.

Lemma d_of_Z_le j k :
  - 2 ^ 53 < j < 2 ^ 53 -> - 2 ^ 53 < k < 2 ^ 53 ->
  dle (d_of_Z j) (d_of_Z k) = (j <=? k).
Proof.
  intros Hj Hk. unfold dle, SFleb. rewrite d_of_Z_compare by assumption.
  unfold Z.leb. destruct (j ?= k); reflexivity.
Qed.

Lemma d_of_Z_lt j k :
  - 2 ^ 53 < j < 2 ^ 53 -> - 2 ^ 53 < k < 2 ^ 53 ->
  dlt (d_of_Z j) (d_of_Z k) = (j <? k).
Proof.
  intros Hj Hk. unfold dlt, SFltb. rewrite d_of_Z_compare by assumption.
  unfold Z.ltb. destruct (j ?= k); reflexivity.
Qed.

(** A rounded value that is an integer below [2^53] is that integer. *)
Lemma rounded_int k r :
  - 2 ^ 53 < k < 2 ^ 53 -> rounded (k * 2 ^ 1074) r -> r = d_of_Z k.
Proof.
  intros Hk Hr. destruct k as [|p|p].
  - exact Hr.
  - destruct (d_of_Z_pos p ltac:(lia)) as (m & e & -> & Hb & _ & Hv).
    apply (rp_exact false (Zpos p * 2 ^ 1074)); assumption.
  - destruct (d_of_Z_neg p ltac:(lia)) as (m & e & -> & Hb & _ & Hv).
    change (Z.neg p * 2 ^ 1074) with (Z.neg (p * 2 ^ 1074)) in Hr.
    apply (rp_exact true (Zpos p * 2 ^ 1074)); assumption.
Qed.

Lemma d_of_Z_add j k :
  - 2 ^ 53 < j < 2 ^ 53 -> - 2 ^ 53 < k < 2 ^ 53 -> - 2 ^ 53 < j + k < 2 ^ 53 ->
  dadd (d_of_Z j) (d_of_Z k) = d_of_Z (j + k).
Proof.
  intros Hj Hk Hjk.
  destruct (Z.eq_dec j 0) as [->|Nj]; destruct (Z.eq_dec k 0) as [->|Nk].
  - reflexivity.
  - rewrite Z.add_0_l.
    destruct (d_of_Z_finite k Hk Nk) as (m & e & E & _). rewrite E. reflexivity.
  - rewrite Z.add_0_r.
    destruct (d_of_Z_finite j Hj Nj) as (m & e & E & _). rewrite E. reflexivity.
  - destruct (d_of_Z_valid j Hj) as [_ Ej]. destruct (d_of_Z_valid k Hk) as [_ Ek].
    destruct (d_of_Z_finite j Hj Nj) as (mx & ex & Dj & Vj & _).
    destruct (d_of_Z_finite k Hk Nk) as (my & ey & Dk & Vk & _).
    apply bounded_iff in Vj as [Vj _]. apply bounded_iff in Vk as [Vk _].
    apply rounded_int; [assumption|].
    rewrite Z.mul_add_distr_r, <- Ej, <- Ek, Dj, Dk.
    apply SFadd_ff; eapply canonical_min_exp; eassumption.
Qed.

Lemma d_of_Z_sub j k :
  - 2 ^ 53 < j < 2 ^ 53 -> - 2 ^ 53 < k < 2 ^ 53 -> - 2 ^ 53 < j - k < 2 ^ 53 ->
  j <> 0 -> k <> 0 ->
  dsub (d_of_Z j) (d_of_Z k) = d_of_Z (j - k).
Proof.
  intros Hj Hk Hjk Nj Nk.
  destruct (d_of_Z_valid j Hj) as [_ Ej]. destruct (d_of_Z_valid k Hk) as [_ Ek].
  destruct (d_of_Z_finite j Hj Nj) as (mx & ex & Dj & Vj & _).
  destruct (d_of_Z_finite k Hk Nk) as (my & ey & Dk & Vk & _).
  apply bounded_iff in Vj as [Vj _]. apply bounded_iff in Vk as [Vk _].
  apply rounded_int; [assumption|].
  rewrite Z.mul_sub_distr_r, <- Ej, <- Ek, Dj, Dk.
  apply SFsub_ff; eapply canonical_min_exp; eassumption.
Qed.

(** Adding at least [2^52] to a count of tokens gives at least [2^52]. *)
Lemma dadd_big j E :
  0 <= j < 2 ^ 53 -> 2 ^ 52 <= E ->
  dadd (d_of_Z j) (d_of_Z E) = S754_infinity false \/
  (finite_valid (dadd (d_of_Z j) (d_of_Z E)) = true /\
   2 ^ 52 * 2 ^ 1074 <= SFval (dadd (d_of_Z j) (d_of_Z E))).
Proof.
  intros Hj HE.
  assert (HX : canonical 4503599627370496 0 = true) by reflexivity.
  assert (HvX : val (Zpos 4503599627370496) 0 = 2 ^ 52 * 2 ^ 1074) by reflexivity.
  assert (H1074 : 0 < 2 ^ 1074) by (apply pow2_pos; lia).
  pose proof (d_of_Z_rounded E) as HrE.
  apply rounded_pos_inv in HrE; [|change (2 ^ 52) with 4503599627370496 in HE; lia].
  destruct (rp_ge false _ _ _ _ HrE HX ltac:(rewrite HvX; nia))
    as [EE|(mE & eE & EE & HbE & HgeE)]; rewrite EE.
  - left. destruct (Z.eq_dec j 0) as [->|Nj]; [reflexivity|].
    destruct (d_of_Z_finite j ltac:(lia) Nj) as (m & e & -> & _). reflexivity.
  - destruct (Z.eq_dec j 0) as [->|Nj].
    + right. change (d_of_Z 0) with (S754_zero false). cbn [dadd SFadd].
      split; [exact HbE|]. cbn [SFval cond_Zopp]. lia.
    + destruct (d_of_Z_finite j ltac:(lia) Nj) as (m & e & -> & Hb & _ & Hv).
      replace (j <? 0) with false by (symmetry; apply Z.ltb_ge; lia).
      pose proof (SFadd_ff false m e false mE eE (bounded_min_exp _ _ Hb)
                    (bounded_min_exp _ _ HbE)) as Hr.
      fold (dadd (S754_finite false m e) (S754_finite false mE eE)) in Hr.
      cbn [SFval cond_Zopp] in Hr.
      pose proof (val_pos m e (bounded_min_exp _ _ Hb)).
      apply rounded_pos_inv in Hr; [|lia].
      destruct (rp_ge false _ _ _ _ Hr HX ltac:(lia)) as [->|(m' & e' & -> & Hb' & Hge')];
        [now left|right].
      split; [exact Hb'|]. cbn [SFval cond_Zopp]. lia.
Qed.

Lemma std_min_add C j E :
  in_int C -> 0 <= j <= C -> 0 <= E ->
  std_min (d_of_Z C) (dadd (d_of_Z j) (d_of_Z E)) = d_of_Z (Z.min C (j + E)).
Proof.
  intros HC Hj HE. unfold in_int in HC. unfold std_min.
  change (2 ^ 31) with 2147483648 in HC.
  destruct (Z_lt_le_dec E (2 ^ 52)) as [Hs|Hb].
  - change (2 ^ 52) with 4503599627370496 in Hs.
    rewrite d_of_Z_add by (simpl; lia). rewrite d_of_Z_lt by (simpl; lia).
    destruct (Z.ltb_spec (j + E) C); f_equal; lia.
  - replace (Z.min C (j + E)) with C
      by (change (2 ^ 52) with 4503599627370496 in Hb; lia).
    destruct (d_of_Z_valid C ltac:(simpl; lia)) as [Vc Ec].
    assert (H1074 : 0 < 2 ^ 1074) by (apply pow2_pos; lia).
    destruct (dadd_big j E ltac:(simpl; lia) Hb) as [->|[Hv Hge]].
    + destruct (d_of_Z C); try discriminate; reflexivity.
    + rewrite dlt_val by assumption. rewrite Ec.
      destruct (Z.ltb_spec (SFval (dadd (d_of_Z j) (d_of_Z E))) (C * 2 ^ 1074));
        [|reflexivity].
      exfalso. change (2 ^ 52) with 4503599627370496 in Hge. nia.
Qed.

(** *** Products and quotients *)

Lemma SFdiv_core_bounds m1 e1 m2 e2 :
  let '(q, e', _) := SFdiv_core_binary 53 1024 (Zpos m1) e1 (Zpos m2) e2 in
  0 <= q /\ q < 2 ^ (dg m1 + (e1 - e2 - e')) /\
  e' = Z.min (fexp 53 1024 (dg m1 + e1 - (dg m2 + e2))) (e1 - e2).
Proof.
  unfold SFdiv_core_binary. simpl Zdigits2. fold (dg m1) (dg m2).
  set (e' := Z.min (fexp 53 1024 (dg m1 + e1 - (dg m2 + e2))) (e1 - e2)).
  set (m' := match e1 - e2 - e' with
             | 0 => Zpos m1 | Zpos _ => Z.shiftl (Zpos m1) (e1 - e2 - e') | Zneg _ => 0 end).
  assert (Hs : 0 <= e1 - e2 - e') by lia.
  assert (Hm' : m' = Zpos m1 * 2 ^ (e1 - e2 - e')).
  { unfold m'. destruct (e1 - e2 - e') as [|p|p] eqn:E; try lia.
    rewrite Z.shiftl_mul_pow2 by lia. reflexivity. }
  destruct (Z.div_eucl m' (Zpos m2)) as [q r] eqn:E.
  assert (Hq : q = m' / Zpos m2) by (unfold Z.div; now rewrite E).
  pose proof (dg_bounds m1) as [_ Hb]. pose proof (dg_pos m1).
  assert (0 < 2 ^ (e1 - e2 - e')) by (now apply pow2_pos).
  assert (0 <= m') by nia.
  split; [|split; [|reflexivity]].
  - rewrite Hq. apply Z.div_pos; lia.
  - assert (q <= m') by (rewrite Hq; apply Z.div_le_upper_bound; nia).
    rewrite Z.pow_add_r by lia. nia.
Qed.

(** [(double)rate / 1000.0] neither overflows nor is a NaN. *)
Lemma div_1000_class rate :
  in_int rate -> zero_or_finite (rate <? 0) (ddiv (d_of_Z rate) d1000).
Proof.
  intros Hr. unfold in_int in Hr.
  destruct (Z.eq_dec rate 0) as [->|Nz]; [now left|].
  destruct (d_of_Z_finite rate ltac:(lia) Nz) as (m & e & -> & Hb & He & _).
  apply bounded_iff in Hb as [Hc _].
  pose proof (canonical_min_exp _ _ Hc) as Hmin. apply canonical_iff in Hc.
  pose proof (dg_pos m) as Hdg.
  unfold ddiv, SFdiv, d1000.
  pose proof (SFdiv_core_bounds m e 8796093022208000 (-43)) as Hcore.
  destruct (SFdiv_core_binary 53 1024 (Z.pos m) e 8796093022208000 (-43)) as [[q e'] l].
  destruct Hcore as (Hq0 & Hq & He'). change (dg 8796093022208000) with 53 in He'.
  rewrite fexp_eq in He'.
  rewrite xorb_false_r.
  destruct (binary_round_aux_class (rate <? 0) q e' l (dg m + (e - -43 - e') + 1) Hq0)
    as [->|(m' & e'' & -> & Hlo & Hhi)].
  - rewrite (Z.pow_add_r 2 _ 1) by lia. change (2 ^ 1) with 2. lia.
  - now left.
  - rewrite !fexp_eq in Hhi.
    destruct (Z.leb_spec e'' 971); [|lia].
    right. exists m', e''. auto.
Qed.

Lemma SFmul_zero_l s sy y :
  zero_or_finite sy y -> dmul (S754_zero s) y = S754_zero (xorb s sy).
Proof. intros [->|(m & e & -> & _)]; reflexivity. Qed.

Lemma dmul_finite_exp x y s m e : dmul x y = S754_finite s m e -> -1074 <= e.
Proof.
  destruct x as [sx|sx| |sx mx ex], y as [sy|sy| |sy my ey]; try discriminate.
  unfold dmul, SFmul. intros H.
  destruct (binary_round_aux_signed (xorb sx sy) (Zpos (mx * my)) (ex + ey) loc_Exact
              ltac:(lia)) as [E|[E|(m' & e' & E & He')]];
    rewrite E in H; try discriminate.
  injection H as _ _ <-. exact He'.
Qed.

Lemma drain_nonneg delta rate :
  in_int rate -> 0 <= rate -> 0 <= delta ->
  nonneg_or_nan (dmul (d_of_Z delta) (ddiv (d_of_Z rate) d1000)).
Proof.
  intros Hi Hr Hd. pose proof (div_1000_class rate Hi) as Hy.
  replace (rate <? 0) with false in Hy by (symmetry; apply Z.ltb_ge; lia).
  destruct (d_of_Z_nonneg_class delta Hd) as [->|[->|(m & e & -> & Hb)]].
  - rewrite (SFmul_zero_l false false) by assumption. exact I.
  - destruct Hy as [->|(my & ey & -> & _)]; simpl; auto.
  - destruct Hy as [->|(my & ey & -> & _)]; [exact I|].
    unfold dmul, SFmul.
    destruct (binary_round_aux_signed (xorb false false) (Zpos (m * my)) (e + ey) loc_Exact
                ltac:(lia)) as [->|[->|(m' & e' & -> & He')]]; simpl; auto.
Qed.

(** *** Levels that are not negative *)

Lemma finite_valid_nonneg_cases b :
  finite_valid b = true -> 0 <= SFval b ->
  (exists s, b = S754_zero s) \/
  exists m e, b = S754_finite false m e /\ bounded 53 1024 m e = true /\ -1074 <= e.
Proof.
  destruct b as [s| | |s m e]; try discriminate; intros Hv Hn; [left; eauto|right].
  cbn [finite_valid] in Hv. pose proof Hv as Hb. apply bounded_iff in Hv as [Hc _].
  pose proof (canonical_min_exp _ _ Hc) as He. pose proof (val_pos m e He).
  destruct s; cbn [SFval cond_Zopp] in Hn; [lia|]. exists m, e. auto.
Qed.

Lemma nonneg_class_of_valid b :
  finite_valid b = true -> 0 <= SFval b -> b = S754_zero true \/ nonneg_class b.
Proof.
  intros Hv Hn.
  destruct (finite_valid_nonneg_cases b Hv Hn) as [[[] ->]|(m & e & -> & _ & He)].
  - now left.
  - right. now left.
  - right. right. right. eauto.
Qed.

(** The level after draining lies between zero and the level before. *)
Lemma after_drain b drain :
  finite_valid b = true -> 0 <= SFval b -> nonneg_or_nan drain ->
  finite_valid (std_max d0 (dsub b drain)) = true /\
  0 <= SFval (std_max d0 (dsub b drain)) <= SFval b.
Proof.
  intros Hv Hn Hd.
  destruct (finite_valid_nonneg_cases b Hv Hn) as [[s ->]|(m & e & -> & Hb & He)].
  - destruct drain as [sd|sd| |sd md ed]; simpl in Hd.
    + destruct s, sd; simpl; auto with zarith.
    + subst sd. simpl; auto with zarith.
    + simpl; auto with zarith.
    + destruct Hd as [-> _]. simpl; auto with zarith.
  - destruct drain as [sd|sd| |sd md ed]; simpl in Hd.
    + unfold std_max, dsub, SFsub, dlt, SFltb. cbn [SFcompare d0].
      cbn [finite_valid]. split; [assumption|lia].
    + subst sd. simpl. auto with zarith.
    + simpl. auto with zarith.
    + destruct Hd as [-> Hed].
      pose proof (SFsub_ff false m e false md ed He Hed) as Hr.
      fold (dsub (S754_finite false m e) (S754_finite false md ed)) in Hr.
      cbn [SFval cond_Zopp] in *. pose proof (val_pos md ed Hed).
      set (r := dsub (S754_finite false m e) (S754_finite false md ed)) in *.
      destruct (val (Zpos m) e - val (Zpos md) ed) as [|p|p] eqn:E; cbn [rounded] in Hr.
      * rewrite Hr. simpl. auto with zarith.
      * destruct (rp_le false _ r m e Hr Hb ltac:(lia)) as (m' & e' & -> & Hb' & Hle).
        unfold std_max, dlt, SFltb. cbn [SFcompare d0 finite_valid SFval cond_Zopp].
        apply bounded_iff in Hb' as Hc'. destruct Hc' as [Hc' _].
        pose proof (val_pos m' e' (canonical_min_exp _ _ Hc')).
        split; [assumption|lia].
      * destruct (rp_class true _ r Hr) as [->|(m' & e' & -> & _)]; simpl; auto with zarith.
Qed.

(** Adding [1.0] to a level that is not negative gives a positive number
    or [+inf]. *)
Lemma dadd_d1_class b :
  nonneg_class b ->
  dadd b d1 = S754_infinity false \/
  exists m e, dadd b d1 = S754_finite false m e /\ bounded 53 1024 m e = true.
Proof.
  intros [->|[->|(m & e & -> & He)]].
  - right. eexists _, _. split; reflexivity.
  - now left.
  - pose proof (SFadd_ff false m e false 4503599627370496 (-52) He ltac:(lia)) as Hr.
    fold (dadd (S754_finite false m e) d1) in Hr.
    apply (rp_class false (SFval (S754_finite false m e) + SFval d1)).
    apply rounded_pos_inv; [|exact Hr].
    cbn [SFval cond_Zopp]. pose proof (val_pos m e He).
    pose proof (val_pos 4503599627370496 (-52) ltac:(lia)). unfold d1. cbn [SFval cond_Zopp]. lia.
Qed.

Lemma std_max_d0_class x :
  (forall s m e, x = S754_finite s m e -> -1074 <= e) ->
  nonneg_class (std_max d0 x).
Proof.
  intros Hx. destruct x as [s|[]| |[] m e]; try (now left).
  - right. now left.
  - right. right. exists m, e. split; [reflexivity|]. eapply Hx. reflexivity.
Qed.

Lemma after_drain_class b drain :
  nonneg_class b ->
  (forall s m e, drain = S754_finite s m e -> -1074 <= e) ->
  nonneg_class (std_max d0 (dsub b drain)).
Proof.
  intros Hb Hd. apply std_max_d0_class. intros s m e E.
  destruct Hb as [->|[->|(mb & eb & -> & Heb)]].
  - destruct drain as [sd|sd| |sd md ed]; try discriminate.
    + destruct sd; discriminate.
    + injection E as _ _ <-. eapply Hd. reflexivity.
  - destruct drain as [sd|[]| |sd md ed]; discriminate.
  - destruct drain as [sd|sd| |sd md ed]; try discriminate.
    + injection E as _ _ <-. exact Heb.
    + pose proof (SFsub_ff false mb eb sd md ed Heb (Hd _ _ _ eq_refl)) as Hr.
      fold (dsub (S754_finite false mb eb) (S754_finite sd md ed)) in Hr.
      destruct (rounded_class _ _ Hr) as [E'|[[s' E']|(s' & m' & e' & E' & Hbd)]];
        rewrite E' in E; try discriminate.
      injection E as _ _ <-. now apply bounded_min_exp in Hbd.
Qed.

Lemma std_max_dsub_zero b sg :
  nonneg_class b -> std_max d0 (dsub b (S754_zero sg)) = b.
Proof.
  intros [->|[->|(m & e & -> & _)]]; try reflexivity. destruct sg; reflexivity.
Qed.

End B64Facts.
Import B64Facts.

(** ** Facts on the leaky bucket *)

Module LeakyBucketFacts.
Import LeakyBucket.

(** *** The level stays within the capacity *)

Lemma delta_ms_nonneg s ts : 0 <= delta_ms s ts.
Proof. unfold delta_ms. destruct (Z.ltb_spec (to_long (ts - last_ts s)) 0); lia. Qed.

Lemma add_request_fields s :
  capacity (snd (add_request s)) = capacity s /\
  leakRate (snd (add_request s)) = leakRate s /\
  last_ts (snd (add_request s)) = last_ts s.
Proof. unfold add_request. destruct (dle _ _); simpl; auto. Qed.

Lemma allow_fields s ts :
  capacity (snd (allow s ts)) = capacity s /\
  leakRate (snd (allow s ts)) = leakRate s /\
  last_ts (snd (allow s ts)) = ts.
Proof.
  unfold allow. destruct (last_ts s =? -1);
    match goal with |- context [add_request ?x] =>
      destruct (add_request_fields x) as (-> & -> & ->) end; simpl; auto.
Qed.

Lemma add_request_bounded s :
  in_int (capacity s) -> bounded_level s -> bounded_level (snd (add_request s)).
Proof.
  intros Hc [Hv Hb]. unfold add_request.
  destruct (dle (dadd (bucket s) d1) (d_of_Z (capacity s))) eqn:E; [|split; assumption].
  unfold bounded_level. cbn [snd bucket capacity].
  destruct (d_of_Z_valid (capacity s) ltac:(unfold in_int in Hc; lia)) as [Vc Ec].
  assert (Hcls : dadd (bucket s) d1 = S754_infinity false \/
     exists m e, dadd (bucket s) d1 = S754_finite false m e /\ bounded 53 1024 m e = true).
  { destruct (nonneg_class_of_valid _ Hv ltac:(lia)) as [->|Hn].
    - right. eexists _, _. split; reflexivity.
    - now apply dadd_d1_class. }
  destruct Hcls as [Hinf|(m & e & Hfin & Hbd)].
  - rewrite Hinf in E. destruct (d_of_Z (capacity s)); discriminate.
  - rewrite Hfin in *.
    rewrite dle_val in E by assumption. rewrite Ec in E. apply Z.leb_le in E.
    split; [exact Hbd|]. split; [|exact E].
    cbn [SFval cond_Zopp]. pose proof (val_pos m e (bounded_min_exp _ _ Hbd)). lia.
Qed.

Lemma allow_bounded s ts :
  in_int (capacity s) -> in_int (leakRate s) -> 0 <= leakRate s ->
  bounded_level s -> bounded_level (snd (allow s ts)).
Proof.
  intros Hc Hr Hr0 [Hv Hb]. unfold allow.
  destruct (last_ts s =? -1).
  - apply add_request_bounded; [exact Hc|split; assumption].
  - apply add_request_bounded; [exact Hc|]. unfold bounded_level. cbn [bucket capacity].
    pose proof (after_drain (bucket s) (drain s ts) Hv ltac:(lia)
                  (drain_nonneg _ _ Hr Hr0 (delta_ms_nonneg s ts))) as [Hv' Hb'].
    split; [exact Hv'|lia].
Qed.

Lemma leaky_run_cons s ts tss :
  run s (ts :: tss) =
  (fst (allow s ts) :: fst (run (snd (allow s ts)) tss),
   snd (run (snd (allow s ts)) tss)).
Proof.
  simpl. destruct (allow s ts) as [r s1]. cbn [fst snd].
  destruct (run s1 tss) as [rs s2]. reflexivity.
Qed.

Lemma run_fields tss : forall s,
  capacity (snd (run s tss)) = capacity s /\
  leakRate (snd (run s tss)) = leakRate s.
Proof.
  induction tss as [|ts tss IH]; intros s; [simpl; auto|].
  rewrite leaky_run_cons. cbn [snd].
  destruct (IH (snd (allow s ts))) as [-> ->].
  destruct (allow_fields s ts) as (-> & -> & _). auto.
Qed.

Lemma run_bounded tss : forall s,
  in_int (capacity s) -> in_int (leakRate s) -> 0 <= leakRate s ->
  bounded_level s -> bounded_level (snd (run s tss)).
Proof.
  induction tss as [|ts tss IH]; intros s Hc Hr Hr0 Hb; [exact Hb|].
  rewrite leaky_run_cons. cbn [snd].
  destruct (allow_fields s ts) as (Ec & Er & _).
  apply IH; rewrite ?Ec, ?Er; try assumption.
  now apply allow_bounded.
Qed.

Lemma bounded_level_init c r : 0 <= c -> bounded_level (LeakyBucket c r).
Proof.
  intros Hc. split; [reflexivity|]. cbn [LeakyBucket bucket capacity].
  change (SFval (d_of_Z 0)) with 0. lia.
Qed.


(** *** The level is zero, positive or infinite, whatever the rate *)

Lemma add_request_class s :
  nonneg_class (bucket s) -> nonneg_class (bucket (snd (add_request s))).
Proof.
  intros Hb. unfold add_request.
  destruct (dle _ _); [|exact Hb]. cbn [snd bucket].
  destruct (dadd_d1_class _ Hb) as [->|(m & e & -> & Hbd)].
  - right. now left.
  - right. right. exists m, e. split; [reflexivity|now apply bounded_min_exp in Hbd].
Qed.

Lemma allow_class s ts :
  nonneg_class (bucket s) -> nonneg_class (bucket (snd (allow s ts))).
Proof.
  intros Hb. unfold allow. destruct (last_ts s =? -1).
  - now apply add_request_class.
  - apply add_request_class. cbn [bucket].
    apply after_drain_class; [exact Hb|].
    intros sg m e. apply dmul_finite_exp.
Qed.

Lemma run_class tss : forall s,
  nonneg_class (bucket s) -> nonneg_class (bucket (snd (run s tss))).
Proof.
  induction tss as [|ts tss IH]; intros s Hb; [exact Hb|].
  rewrite leaky_run_cons. cbn [snd]. apply IH. now apply allow_class.
Qed.

(** *** Calls with no elapsed time *)

Lemma drain_zero s ts :
  in_int (leakRate s) -> delta_ms s ts = 0 -> exists sg, drain s ts = S754_zero sg.
Proof.
  intros Hr Hd. unfold drain. rewrite Hd. change (d_of_Z 0) with (S754_zero false).
  eexists. apply SFmul_zero_l. apply div_1000_class. exact Hr.
Qed.

Lemma allow_no_elapsed s ts :
  nonneg_class (bucket s) -> in_int (leakRate s) ->
  last_ts s = -1 \/ to_long (ts - last_ts s) <= 0 ->
  allow s ts = add_request (mk (capacity s) (leakRate s) (bucket s) ts).
Proof.
  intros Hb Hr Hts. unfold allow.
  destruct (Z.eqb_spec (last_ts s) (-1)) as [E|E]; [reflexivity|].
  destruct Hts as [|Hts]; [contradiction|].
  assert (Hd : delta_ms s ts = 0).
  { unfold delta_ms. destruct (Z.ltb_spec (to_long (ts - last_ts s)) 0); lia. }
  destruct (drain_zero s ts Hr Hd) as [sg ->].
  now rewrite std_max_dsub_zero.
Qed.

(** On a level that is the integer [k], the request is added exactly. *)
Lemma add_request_int s k :
  bucket s = d_of_Z k -> 0 <= k < 2 ^ 52 -> in_int (capacity s) ->
  add_request s =
  if k + 1 <=? capacity s
  then (true, mk (capacity s) (leakRate s) (d_of_Z (k + 1)) (last_ts s))
  else (false, s).
Proof.
  intros Hb Hk Hc. unfold add_request, in_int in *. rewrite Hb, d1_of_Z.
  change (2 ^ 52) with 4503599627370496 in Hk.
  rewrite d_of_Z_add by (simpl; lia).
  rewrite d_of_Z_le by (simpl; lia). reflexivity.
Qed.

(** Calls that all carry the timestamp [t]: the bucket takes one unit per
    call while there is room, and nothing afterwards. *)
Lemma run_same_ts t n : forall s k,
  bucket s = d_of_Z k -> 0 <= k <= capacity s ->
  in_int (capacity s) -> in_int (leakRate s) ->
  last_ts s = -1 \/ last_ts s = t ->
  fst (run s (repeat t n)) =
  repeat true (Nat.min n (Z.to_nat (capacity s - k))) ++
  repeat false (n - Z.to_nat (capacity s - k)).
Proof.
  induction n as [|n IH]; intros s k Hb Hk Hc Hr Hl; [reflexivity|].
  cbn [repeat]. rewrite leaky_run_cons. cbn [fst].
  assert (Hk' : 0 <= k < 2 ^ 52) by (unfold in_int in Hc; simpl; lia).
  rewrite allow_no_elapsed; [|rewrite Hb; apply d_of_Z_nonneg; simpl in *; lia|exact Hr|].
  2:{ destruct Hl as [Hl|Hl]; [now left|right]. rewrite Hl, Z.sub_diag. reflexivity. }
  rewrite (add_request_int _ k) by (cbn [bucket capacity]; assumption).
  cbn [capacity leakRate last_ts].
  destruct (Z.leb_spec (k + 1) (capacity s)) as [Hle|Hgt]; cbn [fst snd].
  - rewrite (IH _ (k + 1)); cbn [bucket capacity leakRate last_ts]; auto; try lia.
    replace (Z.to_nat (capacity s - k)) with (S (Z.to_nat (capacity s - (k + 1)))) by lia.
    reflexivity.
  - rewrite (IH _ k); cbn [bucket capacity leakRate last_ts]; auto.
    replace (Z.to_nat (capacity s - k)) with 0%nat by lia.
    rewrite Nat.min_0_r, !Nat.sub_0_r. reflexivity.
Qed.

(** *** A capacity that is not positive *)

Lemma add_request_deny s :
  capacity s <= 0 -> in_int (capacity s) -> nonneg_class (bucket s) ->
  add_request s = (false, s).
Proof.
  intros Hc Hi Hb. unfold add_request.
  replace (dle (dadd (bucket s) d1) (d_of_Z (capacity s))) with false; [reflexivity|].
  symmetry. unfold in_int in Hi.
  assert (Hcap : d_of_Z (capacity s) = d0 \/ exists m e, d_of_Z (capacity s) = S754_finite true m e).
  { destruct (Z.eq_dec (capacity s) 0) as [->|Nz]; [now left|right].
    destruct (d_of_Z_finite (capacity s) ltac:(lia) Nz) as (m & e & E & _).
    replace (capacity s <? 0) with true in E by (symmetry; apply Z.ltb_lt; lia). eauto. }
  destruct (dadd_d1_class _ Hb) as [->|(m & e & -> & _)];
    destruct Hcap as [->|(mc & ec & ->)]; reflexivity.
Qed.

Lemma leaky_run_deny tss : forall s,
  capacity s <= 0 -> in_int (capacity s) -> nonneg_class (bucket s) ->
  fst (run s tss) = repeat false (length tss).
Proof.
  induction tss as [|ts tss IH]; intros s Hc Hi Hb; [reflexivity|].
  rewrite leaky_run_cons. cbn [fst length repeat].
  pose proof (allow_class s ts Hb) as Hb'.
  destruct (allow_fields s ts) as (Ec & _ & _).
  rewrite IH by (rewrite ?Ec; assumption). f_equal.
  unfold allow. destruct (last_ts s =? -1).
  - rewrite add_request_deny; auto.
  - rewrite add_request_deny; auto. cbn [bucket].
    apply after_drain_class; [exact Hb|]. intros sg m e. apply dmul_finite_exp.
Qed.

End LeakyBucketFacts.

(** ** Facts on the token bucket *)

Module TokenBucketFacts.
Import TokenBucket.

(** *** Whole tokens *)

(** The check, on a bucket that holds the integer number [j] of tokens and
    earns the integer [E]. *)
Lemma isAllowable_int s now j :
  tokens s = d_of_Z j -> 0 <= j <= capacity s -> in_int (capacity s) ->
  0 <= to_long (timePassed s now * (refillRate s ÷ 60)) ->
  isAllowable s now =
  let j' := Z.min (capacity s) (j + to_long (timePassed s now * (refillRate s ÷ 60))) in
  if 1 <=? j'
  then (true, mk (capacity s) (d_of_Z (j' - 1)) (refillRate s) (to_int now))
  else (false, mk (capacity s) (d_of_Z j') (refillRate s) (lastRefillTime s)).
Proof.
  intros Ht Hj Hc HE. unfold isAllowable, earned. rewrite Ht.
  rewrite std_min_add by assumption. cbv zeta.
  set (j' := Z.min (capacity s) (j + to_long (timePassed s now * (refillRate s ÷ 60)))).
  assert (Hj' : 0 <= j' <= capacity s) by lia.
  unfold in_int in Hc. change (2 ^ 31) with 2147483648 in Hc.
  unfold dge. rewrite d1_of_Z, d_of_Z_le by (simpl; lia).
  destruct (Z.leb_spec 1 j'); [|reflexivity].
  rewrite d_of_Z_sub by (simpl; lia). reflexivity.
Qed.

Lemma token_run_cons s now nows :
  run s (now :: nows) =
  (fst (isAllowable s now) :: fst (run (snd (isAllowable s now)) nows),
   snd (run (snd (isAllowable s now)) nows)).
Proof.
  simpl. destruct (isAllowable s now) as [r s1]. cbn [fst snd].
  destruct (run s1 nows) as [rs s2]. reflexivity.
Qed.

(** *** Checks that earn nothing *)

Lemma isAllowable_no_earn s now j :
  tokens s = d_of_Z j -> 0 <= j <= capacity s -> in_int (capacity s) ->
  to_long (timePassed s now * (refillRate s ÷ 60)) = 0 ->
  isAllowable s now =
  if 1 <=? j
  then (true, mk (capacity s) (d_of_Z (j - 1)) (refillRate s) (to_int now))
  else (false, s).
Proof.
  intros Ht Hj Hc HE. rewrite (isAllowable_int s now j) by (rewrite ?HE; auto; lia).
  rewrite HE. cbv zeta. replace (Z.min (capacity s) (j + 0)) with j by lia.
  destruct (1 <=? j); [reflexivity|]. f_equal. destruct s; cbn in *. now subst.
Qed.

(** Checks at the clock value of the last refill. *)
Lemma run_same_now t n : forall s j,
  tokens s = d_of_Z j -> 0 <= j <= capacity s -> in_int (capacity s) ->
  in_int t -> lastRefillTime s = t ->
  fst (run s (repeat t n)) =
  repeat true (Nat.min n (Z.to_nat j)) ++ repeat false (n - Z.to_nat j).
Proof.
  induction n as [|n IH]; intros s j Ht Hj Hc Hi Hl; [reflexivity|].
  cbn [repeat]. rewrite token_run_cons. cbn [fst].
  rewrite (isAllowable_no_earn s t j); auto.
  2:{ unfold timePassed. rewrite Hl, Z.sub_diag. reflexivity. }
  destruct (Z.leb_spec 1 j); cbn [fst snd].
  - rewrite (IH _ (j - 1)); cbn [tokens capacity lastRefillTime]; auto; try lia.
    + replace (Z.to_nat j) with (S (Z.to_nat (j - 1))) by lia. reflexivity.
    + now apply to_int_small.
  - rewrite (IH _ j); auto.
    replace (Z.to_nat j) with 0%nat by lia.
    rewrite Nat.min_0_r, !Nat.sub_0_r. reflexivity.
Qed.

(** With a rate under 60 per minute, [refillRate/60] is 0 and no check
    earns anything, whatever the clock reads. *)
Lemma run_no_refill nows : forall s j,
  tokens s = d_of_Z j -> 0 <= j <= capacity s -> in_int (capacity s) ->
  refillRate s ÷ 60 = 0 ->
  fst (run s nows) =
  repeat true (Nat.min (length nows) (Z.to_nat j)) ++
  repeat false (length nows - Z.to_nat j).
Proof.
  induction nows as [|now nows IH]; intros s j Ht Hj Hc Hr; [reflexivity|].
  rewrite token_run_cons. cbn [fst length].
  rewrite (isAllowable_no_earn s now j); auto.
  2:{ rewrite Hr, Z.mul_0_r. reflexivity. }
  destruct (Z.leb_spec 1 j); cbn [fst snd].
  - rewrite (IH _ (j - 1)); cbn [tokens capacity refillRate]; auto; try lia.
    replace (Z.to_nat j) with (S (Z.to_nat (j - 1))) by lia. reflexivity.
  - rewrite (IH _ j); auto.
    replace (Z.to_nat j) with 0%nat by lia.
    rewrite Nat.min_0_r, !Nat.sub_0_r. reflexivity.
Qed.

(** *** Readings of the steady clock *)

Lemma earned_steady s now :
  in_int (refillRate s) -> 0 <= refillRate s ->
  0 <= lastRefillTime s <= now -> now < 2 ^ 31 ->
  to_long (timePassed s now * (refillRate s ÷ 60)) =
    (now - lastRefillTime s) * (refillRate s ÷ 60) /\
  0 <= (now - lastRefillTime s) * (refillRate s ÷ 60).
Proof.
  intros Hr Hr0 Hl Hn. unfold in_int in Hr. unfold timePassed.
  change (2 ^ 31) with 2147483648 in *.
  rewrite (to_long_small (now - lastRefillTime s))
    by (unfold in_long; change (2 ^ 63) with 9223372036854775808; lia).
  rewrite Z.quot_div_nonneg by lia.
  assert (0 <= refillRate s / 60 <= refillRate s).
  { split; [apply Z.div_pos; lia|]. apply Z.div_le_upper_bound; lia. }
  split; [|nia].
  apply to_long_small. unfold in_long. change (2 ^ 63) with 9223372036854775808. nia.
Qed.

Lemma isAllowable_fields s now :
  capacity (snd (isAllowable s now)) = capacity s /\
  refillRate (snd (isAllowable s now)) = refillRate s /\
  (fst (isAllowable s now) = true -> lastRefillTime (snd (isAllowable s now)) = to_int now) /\
  (fst (isAllowable s now) = false -> lastRefillTime (snd (isAllowable s now)) = lastRefillTime s).
Proof.
  unfold isAllowable. destruct (dge _ d1); cbn; repeat split; auto; discriminate.
Qed.

Lemma isAllowable_steady s now t0 :
  in_int (capacity s) -> in_int (refillRate s) -> 0 <= refillRate s ->
  whole_tokens s -> 0 <= lastRefillTime s <= t0 -> t0 <= now < 2 ^ 31 ->
  whole_tokens (snd (isAllowable s now)) /\
  0 <= lastRefillTime (snd (isAllowable s now)) <= now.
Proof.
  intros Hc Hr Hr0 (j & Ht & Hj) Hl Hn.
  destruct (earned_steady s now Hr Hr0 ltac:(lia) ltac:(lia)) as [HE HE0].
  rewrite (isAllowable_int s now j) by (rewrite ?HE; auto). rewrite HE. cbv zeta.
  set (j' := Z.min (capacity s) (j + (now - lastRefillTime s) * (refillRate s ÷ 60))).
  assert (0 <= j' <= capacity s) by lia.
  destruct (Z.leb_spec 1 j'); cbn [snd lastRefillTime]; unfold whole_tokens;
    cbn [tokens capacity].
  - split; [exists (j' - 1); split; [reflexivity|lia]|].
    rewrite to_int_small by (unfold in_int; lia). lia.
  - split; [exists j'; split; [reflexivity|lia]|lia].
Qed.



(** *** A capacity that is not positive *)

Lemma isAllowable_deny s now :
  capacity s <= 0 -> in_int (capacity s) -> low_tokens (capacity s) (tokens s) ->
  fst (isAllowable s now) = false /\
  low_tokens (capacity s) (tokens (snd (isAllowable s now))).
Proof.
  intros Hc Hi Hlow. unfold in_int in Hi. change (2 ^ 31) with 2147483648 in Hi.
  destruct (d_of_Z_valid (capacity s) ltac:(simpl; lia)) as [Vc Ec].
  assert (H1074 : 0 < 2 ^ 1074) by (apply pow2_pos; lia).
  set (sum := dadd (tokens s) (earned s now)).
  assert (Htk : low_tokens (capacity s) (std_min (d_of_Z (capacity s)) sum)).
  { unfold std_min. destruct (dlt sum (d_of_Z (capacity s))) eqn:Elt;
      [|right; split; [exact Vc|lia]].
    destruct sum as [ss|ss| |ss ms es] eqn:Esum.
    - right. split; [reflexivity|]. rewrite dlt_val in Elt by auto. rewrite Ec in Elt.
      apply Z.ltb_lt in Elt. lia.
    - destruct ss; [now left|]. destruct (d_of_Z (capacity s)); discriminate.
    - discriminate.
    - assert (Hb : bounded 53 1024 ms es = true).
      { destruct Hlow as [Hinf|[Hv _]].
        - exfalso. unfold sum in Esum. rewrite Hinf in Esum.
          destruct (earned s now) as [|[]| |]; discriminate.
        - unfold sum, earned in Esum.
          destruct (d_of_Z_class (to_long (timePassed s now * (refillRate s ÷ 60))))
            as [E|[[s' E]|(s' & m' & e' & E & Hbd)]]; rewrite E in Esum.
          + eapply (dadd_valid_or_not (tokens s) d0); eauto.
          + exfalso. destruct (tokens s) as [| | |]; try discriminate.
          + eapply (dadd_valid_or_not (tokens s) (S754_finite s' m' e')); eauto. }
      right. split; [exact Hb|]. rewrite dlt_val in Elt by auto. rewrite Ec in Elt.
      apply Z.ltb_lt in Elt. lia. }
  unfold isAllowable. fold sum.
  replace (dge (std_min (d_of_Z (capacity s)) sum) d1) with false; [split; auto|].
  symmetry. unfold dge. destruct Htk as [->|[Hv Hle]]; [reflexivity|].
  fold (dle d1 (std_min (d_of_Z (capacity s)) sum)).
  rewrite dle_val by auto. apply Z.leb_gt.
  change (SFval d1) with (1 * 2 ^ 1074). nia.
Qed.

Lemma token_run_deny nows : forall s,
  capacity s <= 0 -> in_int (capacity s) -> low_tokens (capacity s) (tokens s) ->
  fst (run s nows) = repeat false (length nows).
Proof.
  induction nows as [|now nows IH]; intros s Hc Hi Hlow; [reflexivity|].
  rewrite token_run_cons. cbn [fst length repeat].
  destruct (isAllowable_deny s now Hc Hi Hlow) as [-> Hlow'].
  destruct (isAllowable_fields s now) as (Ec & _).
  rewrite IH by (rewrite ?Ec; assumption). reflexivity.
Qed.

End TokenBucketFacts.

(** ** Further facts on binary64 arithmetic *)

Module B64Lower.

(** *** Rounding never goes below a representable number *)

Lemma finish_lower s m2 f V :
  2 ^ 52 <= m2 <= 2 ^ 53 -> -1074 <= f -> V <= val m2 f ->
  finish s m2 f = S754_infinity s \/
  exists m' e', finish s m2 f = S754_finite s m' e' /\ f <= e' /\ V <= val (Zpos m') e'.
Proof.
  intros Hm Hf HV.
  destruct (Z_lt_le_dec m2 (2 ^ 53)) as [Hlt|Hge].
  - destruct m2 as [|p|p]; try (exfalso; lia).
    destruct (finish_no_carry s p f ltac:(lia) Hf) as [_ ->].
    destruct (Z.leb_spec f 971); [right|now left].
    exists p, f. split; [reflexivity|]. split; [lia|exact HV].
  - assert (E : m2 = 2 ^ 53) by lia. subst m2.
    rewrite finish_carry by assumption.
    destruct (Z.leb_spec (f + 1) 971); [right|now left].
    exists (2 ^ 52)%positive, (f + 1). split; [reflexivity|]. split; [lia|].
    etransitivity; [exact HV|]. apply Z.eq_le_incl. unfold val.
    replace (f + 1 + 1074) with (1 + (f + 1074)) by lia.
    rewrite (Z.pow_add_r 2 1 (f + 1074)) by lia.
    change (Z.pos (2 ^ 52)) with (2 ^ 52). change (2 ^ 53) with (2 ^ 52 * 2 ^ 1). ring.
Qed.

(** Rounding a mantissa of 53 bits or more, whatever was lost before: the
    result is not below a canonical number that the exact value reaches. *)
Lemma binary_round_aux_lower s m e l mX eX :
  -1074 <= e -> 53 <= dg m ->
  canonical mX eX = true -> val (Zpos mX) eX <= val (Zpos m) e ->
  binary_round_aux 53 1024 s (Zpos m) e l = S754_infinity s \/
  exists m' e', binary_round_aux 53 1024 s (Zpos m) e l = S754_finite s m' e' /\
    e <= e' /\ val (Zpos mX) eX <= val (Zpos m') e'.
Proof.
  intros He Hd HX HV. rewrite binary_round_aux_finish.
  pose proof (pow2_pos (e + 1074) ltac:(lia)) as HP.
  destruct (Z.eq_dec (dg m) 53) as [E53|N53].
  - (* the mantissa fits: it is kept, or goes one up *)
    rewrite shr_fexp_noshift
      by (change (Zdigits2 (Zpos m)) with (dg m); rewrite fexp_eq; lia).
    pose proof (dg_bounds m) as Hb. rewrite E53 in Hb. simpl (53 - 1) in Hb.
    destruct (shr_record_of_loc_flag (Zpos m) l) as [Hm _].
    set (x1 := shr_record_of_loc (Zpos m) l) in *.
    assert (Hr : Zpos m <= round_nearest_even (shr_m x1) (loc_of_shr_record x1) <= Zpos m + 1).
    { destruct (round_nearest_even_cases x1) as [->|[-> _]]; rewrite Hm; lia. }
    apply finish_lower; [lia|exact He|].
    etransitivity; [exact HV|]. unfold val. apply Z.mul_le_mono_nonneg_r; lia.
  - (* low bits are shifted out *)
    set (n := dg m - 53).
    assert (Hn : 0 < n) by (unfold n; lia).
    assert (Hdg : dg m = 53 + n) by (unfold n; lia).
    assert (Hlt : e < fexp 53 1024 (Zdigits2 (Zpos m) + e))
      by (change (Zdigits2 (Zpos m)) with (dg m); rewrite fexp_eq; lia).
    destruct (shr_fexp_shift (Zpos m) e l ltac:(lia) Hlt) as (x1 & Hs1 & Hq & _).
    rewrite Hs1. change (Zdigits2 (Zpos m)) with (dg m) in *.
    rewrite fexp_eq in *.
    replace (Z.max (dg m + e - 53) (-1074)) with (e + n) in * by lia.
    replace (e + n - e) with n in Hq by lia.
    pose proof (kept_bits m e n Hn Hdg) as Hq53.
    destruct (val_between m e n He Hn) as [[_ Hup] _].
    pose proof (below_next m e n He Hn Hdg mX eX HX ltac:(lia)) as Hbelow.
    rewrite <- Hq in Hq53, Hup, Hbelow.
    assert (Hr : shr_m x1 <= round_nearest_even (shr_m x1) (loc_of_shr_record x1)
                 <= shr_m x1 + 1).
    { destruct (round_nearest_even_cases x1) as [->|[-> _]]; lia. }
    destruct (finish_lower s (round_nearest_even (shr_m x1) (loc_of_shr_record x1))
                (e + n) (val (Zpos mX) eX) ltac:(lia) ltac:(lia)) as [Hf|(m' & e' & Hf & He' & Hv)].
    + etransitivity; [exact Hbelow|]. unfold val.
      apply Z.mul_le_mono_nonneg_r; [apply Z.lt_le_incl, pow2_pos|]; lia.
    + now left.
    + right. exists m', e'. split; [exact Hf|]. split; [lia|exact Hv].
Qed.

(** *** Positive integers as doubles *)

Lemma canonical_ge_one m e :
  canonical m e = true -> 2 ^ 1074 <= val (Zpos m) e -> -52 <= e /\ 2 ^ 52 <= Zpos m.
Proof.
  intros Hc Hv.
  assert (H1 : canonical 4503599627370496 (-52) = true) by reflexivity.
  assert (V1 : val (Zpos 4503599627370496) (-52) = 2 ^ 1074) by reflexivity.
  assert (He : -52 <= e).
  { destruct (Z_lt_le_dec e (-52)) as [Hlt|]; [|assumption].
    pose proof (canonical_lt_exp m e _ _ Hc H1 Hlt). lia. }
  split; [exact He|]. apply (canonical_normal m e Hc). lia.
Qed.

Lemma d_of_Z_long k :
  0 < k < 2 ^ 63 ->
  exists m e, d_of_Z k = S754_finite false m e /\ bounded 53 1024 m e = true /\
    -52 <= e /\ 2 ^ 52 <= Zpos m /\
    Z.min k (2 ^ 53) * 2 ^ 1074 <= val (Zpos m) e.
Proof.
  intros Hk.
  assert (HU : 0 < 2 ^ 1074) by (apply pow2_pos; lia).
  destruct (Z_lt_le_dec k (2 ^ 53)) as [Hs|Hb].
  - destruct k as [|p|p]; try lia.
    destruct (d_of_Z_pos p Hs) as (m & e & E & Hbd & _ & Hv).
    exists m, e. split; [exact E|]. split; [exact Hbd|].
    apply bounded_iff in Hbd as [Hc _].
    destruct (canonical_ge_one m e Hc ltac:(rewrite Hv; nia)) as [He Hm].
    split; [exact He|]. split; [exact Hm|]. rewrite Hv.
    apply Z.mul_le_mono_nonneg_r; lia.
  - pose proof (d_of_Z_rounded k) as Hr. apply rounded_pos_inv in Hr; [|nia].
    assert (HX : bounded 53 1024 4503599627370496 11 = true) by reflexivity.
    assert (VX : val (Zpos 4503599627370496) 11 = 2 ^ 63 * 2 ^ 1074) by reflexivity.
    assert (HY : canonical 4503599627370496 1 = true) by reflexivity.
    assert (VY : val (Zpos 4503599627370496) 1 = 2 ^ 53 * 2 ^ 1074) by reflexivity.
    destruct (rp_le false _ _ _ _ Hr HX ltac:(rewrite VX; nia)) as (m & e & E & Hbd & _).
    destruct (rp_ge false _ _ _ _ Hr HY ltac:(rewrite VY; nia))
      as [E'|(m' & e' & E' & _ & Hge)]; rewrite E in E'; [discriminate|].
    injection E' as <- <-.
    exists m, e. split; [exact E|]. split; [exact Hbd|].
    apply bounded_iff in Hbd as [Hc _]. rewrite VY in Hge.
    assert (H53 : 1 <= 2 ^ 53) by (change (2 ^ 53) with 9007199254740992; lia).
    destruct (canonical_ge_one m e Hc ltac:(nia)) as [He Hm].
    split; [exact He|]. split; [exact Hm|].
    replace (Z.min k (2 ^ 53)) with (2 ^ 53) by lia. exact Hge.
Qed.

(** *** The quotient [(double)rate / 1000.0] from below *)

Lemma SFdiv_core_quotient m1 e1 m2 e2 :
  let '(q, e', _) := SFdiv_core_binary 53 1024 (Zpos m1) e1 (Zpos m2) e2 in
  e' = Z.min (fexp 53 1024 (dg m1 + e1 - (dg m2 + e2))) (e1 - e2) /\
  q = Zpos m1 * 2 ^ (e1 - e2 - e') / Zpos m2.
Proof.
  unfold SFdiv_core_binary. simpl Zdigits2. fold (dg m1) (dg m2).
  set (e' := Z.min (fexp 53 1024 (dg m1 + e1 - (dg m2 + e2))) (e1 - e2)).
  set (m' := match e1 - e2 - e' with
             | 0 => Zpos m1 | Zpos _ => Z.shiftl (Zpos m1) (e1 - e2 - e') | Zneg _ => 0 end).
  assert (Hs : 0 <= e1 - e2 - e') by lia.
  assert (Hm' : m' = Zpos m1 * 2 ^ (e1 - e2 - e')).
  { unfold m'. destruct (e1 - e2 - e') as [|p|p] eqn:E; try lia.
    rewrite Z.shiftl_mul_pow2 by lia. reflexivity. }
  destruct (Z.div_eucl m' (Zpos m2)) as [q r] eqn:E.
  split; [reflexivity|]. rewrite <- Hm'. unfold Z.div. now rewrite E.
Qed.

(** The quotient is a positive number, and at most two thousand units of
    its last place ([P]) below [rate / 1000]. *)
Lemma div_1000_lower rate :
  in_int rate -> 0 < rate ->
  exists my ey P M,
    ddiv (d_of_Z rate) d1000 = S754_finite false my ey /\ -62 <= ey /\
    0 < P /\ 2 ^ 52 <= M /\ 1024 * M * P = rate * 2 ^ 1074 /\
    rate * 2 ^ 1074 <= 1000 * val (Zpos my) ey + 2000 * P.
Proof.
  intros Hi Hr. pose proof (div_1000_class rate Hi) as Hcl.
  replace (rate <? 0) with false in Hcl by (symmetry; apply Z.ltb_ge; lia).
  unfold in_int in Hi. change (2 ^ 31) with 2147483648 in Hi.
  destruct (d_of_Z_long rate ltac:(change (2 ^ 63) with 9223372036854775808; lia))
    as (m1 & e1 & E1 & Hb1 & He1 & Hm1 & _).
  destruct rate as [|p|p]; try lia.
  destruct (d_of_Z_pos p ltac:(change (2 ^ 53) with 9007199254740992; lia))
    as (m1' & e1' & E1' & _ & _ & Hv1).
  rewrite E1 in E1'. injection E1' as <- <-.
  rewrite E1 in *. clear E1.
  apply bounded_iff in Hb1 as [Hc1 _]. apply canonical_iff in Hc1.
  assert (Hd1 : dg m1 = 53) by lia.
  pose proof (dg_bounds m1) as [_ Hhi]. rewrite Hd1 in Hhi.
  unfold ddiv, SFdiv, d1000 in *.
  pose proof (SFdiv_core_quotient m1 e1 8796093022208000 (-43)) as Hcore.
  destruct (SFdiv_core_binary 53 1024 (Z.pos m1) e1 8796093022208000 (-43)) as [[q e'] l].
  destruct Hcore as (He' & Hq).
  change (dg 8796093022208000) with 53 in He'. rewrite Hd1, fexp_eq in He'.
  assert (Ee : e' = e1 - 10) by lia. clear He'. subst e'.
  replace (e1 - -43 - (e1 - 10)) with 53 in Hq by lia.
  change (2 ^ 53) with 9007199254740992 in *. change (2 ^ 52) with 4503599627370496 in *.
  assert (Hqlo : Zpos m1 <= q).
  { rewrite Hq. apply Z.div_le_lower_bound; lia. }
  assert (Hqhi : q < 18014398509481984).
  { rewrite Hq. apply Z.div_lt_upper_bound; lia. }
  assert (Hqm : 1024 * Zpos m1 < 1000 * (q + 1)).
  { pose proof (Z.div_mod (Zpos m1 * 9007199254740992) 8796093022208000 ltac:(lia)) as Hdm.
    pose proof (Z.mod_pos_bound (Zpos m1 * 9007199254740992) 8796093022208000 ltac:(lia)).
    rewrite <- Hq in Hdm. lia. }
  set (P := 2 ^ (e1 - 10 + 1074)).
  assert (HP : 0 < P) by (apply pow2_pos; lia).
  assert (HMP : 1024 * Zpos m1 * P = Zpos p * 2 ^ 1074).
  { rewrite <- Hv1. unfold val, P.
    replace (e1 + 1074) with (10 + (e1 - 10 + 1074)) by lia.
    rewrite (Z.pow_add_r 2 10 (e1 - 10 + 1074)) by lia. change (2 ^ 10) with 1024. ring. }
  destruct q as [|pq|pq]; try lia.
  assert (HX : exists mX eX, canonical mX eX = true /\
             val (Zpos mX) eX <= val (Zpos pq) (e1 - 10) /\
             (Zpos pq - 1) * P <= val (Zpos mX) eX).
  { destruct (Z_lt_le_dec (Zpos pq) 9007199254740992) as [Hlt|Hge].
    - exists pq, (e1 - 10). split; [|split; [lia|unfold val; fold P; nia]].
      apply canonical_iff.
      assert (dg pq = 53); [|lia].
      apply Z.le_antisymm; [apply dg_le|apply dg_ge]; simpl; lia.
    - pose proof (Z.div_mod (Zpos pq) 2 ltac:(lia)) as Hdm.
      pose proof (Z.mod_pos_bound (Zpos pq) 2 ltac:(lia)) as Hrem.
      destruct (Zpos pq / 2) as [|h|h] eqn:Eh; try lia.
      exists h, (e1 - 10 + 1).
      assert (Hvh : val (Zpos h) (e1 - 10 + 1) = 2 * Zpos h * P).
      { unfold val, P. replace (e1 - 10 + 1 + 1074) with (1 + (e1 - 10 + 1074)) by lia.
        rewrite (Z.pow_add_r 2 1 (e1 - 10 + 1074)) by lia. change (2 ^ 1) with 2. ring. }
      split; [|split].
      + apply canonical_iff.
        assert (dg h = 53); [|lia].
        apply Z.le_antisymm; [apply dg_le|apply dg_ge]; simpl; lia.
      + rewrite Hvh. unfold val. fold P. nia.
      + rewrite Hvh. nia. }
  destruct HX as (mX & eX & HcX & HXle & HXge).
  assert (Hdq : 53 <= dg pq) by (apply dg_ge; simpl; lia).
  cbn [xorb] in *.
  destruct (binary_round_aux_lower false pq (e1 - 10) l mX eX ltac:(lia) Hdq HcX HXle)
    as [Hinf|(my & ey & Hy & Hey & Hvy)].
  - rewrite Hinf in Hcl. destruct Hcl as [Hcl|(? & ? & Hcl & _)]; discriminate.
  - exists my, ey, P, (Zpos m1). split; [exact Hy|]. split; [lia|].
    split; [exact HP|]. split; [lia|]. split; [exact HMP|].
    rewrite <- HMP. nia.
Qed.

(** *** The product from below *)

Lemma val_mul mx ex my ey :
  -1074 <= ex -> -1074 <= ey -> -1074 <= ex + ey ->
  val (Zpos (mx * my)) (ex + ey) * 2 ^ 1074 = val (Zpos mx) ex * val (Zpos my) ey.
Proof.
  intros Hx Hy Hxy. unfold val. rewrite Pos2Z.inj_mul.
  replace (Z.pos mx * 2 ^ (ex + 1074) * (Z.pos my * 2 ^ (ey + 1074)))
    with (Z.pos mx * Z.pos my * (2 ^ (ex + 1074) * 2 ^ (ey + 1074))) by ring.
  rewrite <- (Z.pow_add_r 2 (ex + 1074) (ey + 1074)) by lia.
  rewrite <- Z.mul_assoc. rewrite <- (Z.pow_add_r 2 (ex + ey + 1074) 1074) by lia.
  do 2 f_equal. lia.
Qed.

Lemma dmul_lower mx ex my ey mb eb :
  -1074 <= ex -> -1074 <= ey -> -1074 <= ex + ey -> 2 ^ 52 <= Zpos mx ->
  canonical mb eb = true ->
  val (Zpos mb) eb * 2 ^ 1074 <= val (Zpos mx) ex * val (Zpos my) ey ->
  dmul (S754_finite false mx ex) (S754_finite false my ey) = S754_infinity false \/
  exists md ed,
    dmul (S754_finite false mx ex) (S754_finite false my ey) = S754_finite false md ed /\
    -1074 <= ed /\ val (Zpos mb) eb <= val (Zpos md) ed.
Proof.
  intros Hx Hy Hxy Hmx Hcb Hv. unfold dmul, SFmul. cbn [xorb].
  rewrite <- val_mul in Hv by assumption.
  assert (HU : 0 < 2 ^ 1074) by (apply pow2_pos; lia).
  assert (Hd : 53 <= dg (mx * my)).
  { apply dg_ge. simpl (53 - 1). rewrite Pos2Z.inj_mul. nia. }
  destruct (binary_round_aux_lower false (mx * my) (ex + ey) loc_Exact mb eb Hxy Hd Hcb
              ltac:(nia)) as [->|(md & ed & -> & He & Hge)]; [now left|right].
  exists md, ed. split; [reflexivity|]. split; [lia|exact Hge].
Qed.

(** *** A drain that takes the whole level *)

Lemma drain_arith C R D U P M Y :
  0 <= C < 2 ^ 31 -> 1 <= R -> 1 <= D -> 0 < P -> 2 ^ 52 <= M ->
  1024 * M * P = R * U -> R * U <= 1000 * Y + 2000 * P ->
  1000 * C + 1 <= D * R ->
  C * U <= D * Y.
Proof.
  change (2 ^ 31) with 2147483648. change (2 ^ 52) with 4503599627370496.
  intros HC HR HD HP HM HMP HY HDR.
  assert (A1 : D * (R * U) <= D * (1000 * Y + 2000 * P))
    by (apply Z.mul_le_mono_nonneg_l; lia).
  assert (A2 : D * P * (1024 * M - 2000) <= 1000 * (D * Y)) by nia.
  assert (A3 : 0 < P * (1024 * M - 2000)) by nia.
  assert (A4 : (1000 * C + 1) * (P * (1024 * M - 2000)) <= D * R * (P * (1024 * M - 2000)))
    by (apply Z.mul_le_mono_nonneg_r; lia).
  assert (A5 : 1000 * C * (1024 * M * P) <= (1000 * C + 1) * (P * (1024 * M - 2000))) by nia.
  assert (A6 : R * (1000 * (C * U)) <= R * (1000 * (D * Y))).
  { replace (R * (1000 * (C * U))) with (1000 * C * (R * U)) by ring.
    rewrite <- HMP.
    replace (R * (1000 * (D * Y))) with (R * (1000 * (D * Y))) by ring.
    assert (D * R * (P * (1024 * M - 2000)) <= R * (1000 * (D * Y))); [|lia].
    replace (D * R * (P * (1024 * M - 2000))) with (R * (D * P * (1024 * M - 2000))) by ring.
    apply Z.mul_le_mono_nonneg_l; lia. }
  apply Z.mul_le_mono_pos_l in A6; lia.
Qed.

Lemma drained_to_zero b drain :
  finite_valid b = true -> 0 <= SFval b ->
  (drain = S754_infinity false \/
   exists md ed, drain = S754_finite false md ed /\ -1074 <= ed /\
                 SFval b <= val (Zpos md) ed) ->
  std_max d0 (dsub b drain) = d0.
Proof.
  intros Hv Hn Hd.
  destruct (finite_valid_nonneg_cases b Hv Hn) as [[s ->]|(m & e & -> & Hb & He)].
  - destruct Hd as [->|(md & ed & -> & _)]; reflexivity.
  - destruct Hd as [->|(md & ed & -> & Hed & Hle)]; [reflexivity|].
    pose proof (SFsub_ff false m e false md ed He Hed) as Hr.
    fold (dsub (S754_finite false m e) (S754_finite false md ed)) in Hr.
    cbn [SFval cond_Zopp] in *.
    set (r := dsub (S754_finite false m e) (S754_finite false md ed)) in *.
    destruct (val (Zpos m) e - val (Zpos md) ed) as [|p|p] eqn:E; cbn [rounded] in Hr.
    + rewrite Hr. reflexivity.
    + lia.
    + destruct (rp_class true _ r Hr) as [->|(m' & e' & -> & _)]; reflexivity.
Qed.

(** With a rate of zero nothing is drained. *)
Lemma dmul_zero_rate delta :
  0 <= delta < 2 ^ 63 ->
  dmul (d_of_Z delta) (ddiv (d_of_Z 0) d1000) = S754_zero false.
Proof.
  intros Hd. destruct (Z.eq_dec delta 0) as [->|Nz]; [reflexivity|].
  destruct (d_of_Z_long delta ltac:(lia)) as (m & e & -> & _). reflexivity.
Qed.

End B64Lower.

(** ** Further facts on runs *)

Lemma last_cons (l : list Z) : forall x d, last (x :: l) d = last l x.
Proof.
  induction l as [|y l IH]; intros x d; [reflexivity|].
  change (last (x :: y :: l) d) with (last (y :: l) d).
  now rewrite (IH y d), (IH y x).
Qed.

Module TokenBucketRuns.
Import TokenBucket TokenBucketFacts.


Lemma steady_app a : forall t0 b,
  steady t0 (a ++ b) <-> steady t0 a /\ steady (last a t0) b.
Proof.
  induction a as [|x a IH]; intros t0 b; [simpl; tauto|].
  change ((x :: a) ++ b) with (x :: (a ++ b)). cbn [steady].
  rewrite IH.
  rewrite last_cons. tauto.
Qed.

Lemma run_app a : forall s b,
  run s (a ++ b) =
  (fst (run s a) ++ fst (run (snd (run s a)) b), snd (run (snd (run s a)) b)).
Proof.
  induction a as [|x a IH]; intros s b.
  - simpl. now destruct (run s b).
  - change ((x :: a) ++ b) with (x :: (a ++ b)).
    rewrite !token_run_cons, IH. reflexivity.
Qed.

Lemma settled_fresh C R :
  in_int C -> 0 <= C -> in_int R -> 0 <= R -> settled (TokenBucket C R) 0.
Proof.
  intros HC HC0 HR HR0. unfold settled. cbn.
  split; [exact HC|]. split; [exact HR|]. split; [exact HR0|]. split; [|lia].
  exists C. split; [reflexivity|cbn; lia].
Qed.

Lemma isAllowable_settled s now t0 :
  settled s t0 -> t0 <= now < 2 ^ 31 -> settled (snd (isAllowable s now)) now.
Proof.
  intros (Hc & Hr & Hr0 & Hw & Hl) Hn.
  destruct (isAllowable_fields s now) as (Ec & Er & _).
  destruct (isAllowable_steady s now t0 Hc Hr Hr0 Hw Hl Hn) as [Hw' Hl'].
  unfold settled. rewrite Ec, Er. auto.
Qed.

Lemma run_settled nows : forall s t0,
  settled s t0 -> steady t0 nows -> settled (snd (run s nows)) (last nows t0).
Proof.
  induction nows as [|now nows IH]; intros s t0 Hs Hst; [exact Hs|].
  destruct Hst as [Hn Hst]. rewrite token_run_cons. cbn [snd].
  pose proof (IH _ now (isAllowable_settled s now t0 Hs Hn) Hst) as H.
  now rewrite last_cons.
Qed.

(** The check on a settled limiter, in whole tokens. *)
Lemma isAllowable_whole s now t0 j :
  settled s t0 -> t0 <= now < 2 ^ 31 -> tokens s = d_of_Z j -> 0 <= j <= capacity s ->
  isAllowable s now =
  let j' := Z.min (capacity s) (j + (now - lastRefillTime s) * (refillRate s ÷ 60)) in
  if 1 <=? j'
  then (true, mk (capacity s) (d_of_Z (j' - 1)) (refillRate s) now)
  else (false, mk (capacity s) (d_of_Z j') (refillRate s) (lastRefillTime s)).
Proof.
  intros (Hc & Hr & Hr0 & _ & Hl) Hn Ht Hj.
  destruct (earned_steady s now Hr Hr0 ltac:(lia) ltac:(lia)) as [HE HE0].
  rewrite (isAllowable_int s now j) by (rewrite ?HE; auto). rewrite HE. cbv zeta.
  rewrite to_int_small by (unfold in_int; lia). reflexivity.
Qed.

Lemma granted_cons r rs : granted (r :: rs) = (if r then 1 else 0) + granted rs.
Proof.
  unfold granted. destruct r; cbn [count_occ].
  - destruct (bool_dec true true); [lia|congruence].
  - destruct (bool_dec false true); [discriminate|lia].
Qed.

Lemma granted_nonneg rs : 0 <= granted rs.
Proof. unfold granted. lia. Qed.

(** Admissions against tokens: once a check was admitted since the clock
    read [b], the [j] tokens left and the [c] checks admitted are together
    at most the capacity and what was earned since [b]. *)
Lemma rate_limit_run window : forall s t0 b c j,
  settled s t0 -> steady t0 window -> b <= t0 -> 0 <= c ->
  tokens s = d_of_Z j -> 0 <= j <= capacity s ->
  (c = 0 \/ (b <= lastRefillTime s /\
             j + c <= capacity s + (lastRefillTime s - b) * (refillRate s ÷ 60))) ->
  c + granted (fst (run s window))
  <= capacity s + (last window t0 - b) * (refillRate s ÷ 60).
Proof.
  induction window as [|now window IH]; intros s t0 b c j Hs Hst Hb Hc0 Ht Hj Hinv.
  - cbn [run fst last]. change (granted []) with 0.
    destruct Hs as (Hc & Hr & Hr0 & _ & Hl).
    assert (0 <= refillRate s ÷ 60) by (apply Z.quot_pos; lia).
    destruct Hinv as [->|[Hbl Hinv]]; nia.
  - destruct Hst as [Hn Hst]. rewrite token_run_cons, last_cons. cbn [fst].
    rewrite granted_cons.
    pose proof (isAllowable_settled s now t0 Hs Hn) as Hs'.
    pose proof Hs as (Hc & Hr & Hr0 & _ & Hl).
    assert (Hk : 0 <= refillRate s ÷ 60) by (apply Z.quot_pos; lia).
    pose proof (isAllowable_whole s now t0 j Hs Hn Ht Hj) as Hstep. cbv zeta in Hstep.
    set (j' := Z.min (capacity s) (j + (now - lastRefillTime s) * (refillRate s ÷ 60))) in *.
    assert (Hj' : 0 <= j' <= capacity s) by nia.
    destruct (Z.leb_spec 1 j') as [H1|H1]; rewrite Hstep in *; cbn [fst snd] in *.
    + specialize (IH _ now b (c + 1) (j' - 1) Hs' Hst ltac:(lia) ltac:(lia) eq_refl).
      cbn [capacity refillRate lastRefillTime tokens] in IH.
      rewrite Z.add_assoc. apply IH; [lia|].
      right. split; [lia|].
      destruct Hinv as [->|[Hbl Hinv]]; nia.
    + specialize (IH _ now b c j' Hs' Hst ltac:(lia) ltac:(lia) eq_refl).
      cbn [capacity refillRate lastRefillTime tokens] in IH.
      rewrite Z.add_0_l. apply IH; [lia|].
      destruct Hinv as [->|[Hbl Hinv]]; [now left|right].
      split; [exact Hbl|]. nia.
Qed.

Lemma token_run_fields nows : forall s,
  capacity (snd (run s nows)) = capacity s /\
  refillRate (snd (run s nows)) = refillRate s.
Proof.
  induction nows as [|now nows IH]; intros s; [simpl; auto|].
  rewrite token_run_cons. cbn [snd].
  destruct (IH (snd (isAllowable s now))) as [-> ->].
  destruct (isAllowable_fields s now) as (-> & -> & _). auto.
Qed.

(** The limiter reached from a fresh one by a run under the steady clock. *)
Lemma settled_run C R nows :
  in_int C -> 0 <= C -> in_int R -> 0 <= R -> steady 0 nows ->
  settled (snd (run (TokenBucket C R) nows)) (last nows 0) /\
  capacity (snd (run (TokenBucket C R) nows)) = C /\
  refillRate (snd (run (TokenBucket C R) nows)) = R.
Proof.
  intros HC HC0 HR HR0 Hs. split.
  - apply run_settled; [now apply settled_fresh|exact Hs].
  - apply token_run_fields.
Qed.

(** Two limiters that differ in their rates only, the rates having the same
    quotient by 60. *)
Lemma same_quotient_step s s' now :
  capacity s = capacity s' -> tokens s = tokens s' ->
  lastRefillTime s = lastRefillTime s' ->
  refillRate s ÷ 60 = refillRate s' ÷ 60 ->
  fst (isAllowable s now) = fst (isAllowable s' now) /\
  capacity (snd (isAllowable s now)) = capacity (snd (isAllowable s' now)) /\
  tokens (snd (isAllowable s now)) = tokens (snd (isAllowable s' now)) /\
  lastRefillTime (snd (isAllowable s now)) = lastRefillTime (snd (isAllowable s' now)) /\
  refillRate (snd (isAllowable s now)) ÷ 60 = refillRate (snd (isAllowable s' now)) ÷ 60.
Proof.
  intros Hc Ht Hl Hq. unfold isAllowable, earned, timePassed.
  rewrite Hc, Ht, Hl, Hq.
  destruct (dge _ d1); cbn; auto.
Qed.

Lemma same_quotient_run nows : forall s s',
  capacity s = capacity s' -> tokens s = tokens s' ->
  lastRefillTime s = lastRefillTime s' ->
  refillRate s ÷ 60 = refillRate s' ÷ 60 ->
  fst (run s nows) = fst (run s' nows).
Proof.
  induction nows as [|now nows IH]; intros s s' Hc Ht Hl Hq; [reflexivity|].
  rewrite !token_run_cons. cbn [fst].
  destruct (same_quotient_step s s' now Hc Ht Hl Hq) as (-> & Hc' & Ht' & Hl' & Hq').
  f_equal. now apply IH.
Qed.

End TokenBucketRuns.

Module LeakyBucketRuns.
Import LeakyBucket LeakyBucketFacts B64Lower.

Lemma delta_ms_range s ts : 0 <= delta_ms s ts < 2 ^ 63.
Proof.
  unfold delta_ms, to_long.
  pose proof (wrap_range 64 (ts - last_ts s) ltac:(lia)) as H. simpl (64 - 1) in H.
  destruct (Z.ltb_spec (wrap 64 (ts - last_ts s)) 0); lia.
Qed.

(** *** A leak rate of zero *)

Lemma allow_zero_rate s ts :
  leakRate s = 0 -> nonneg_class (bucket s) ->
  allow s ts = add_request (mk (capacity s) (leakRate s) (bucket s) ts).
Proof.
  intros Hr Hb. unfold allow. destruct (last_ts s =? -1); [reflexivity|].
  unfold drain. rewrite Hr, dmul_zero_rate by apply delta_ms_range.
  now rewrite std_max_dsub_zero.
Qed.

Lemma run_zero_rate tss : forall s k,
  leakRate s = 0 -> bucket s = d_of_Z k -> 0 <= k <= capacity s -> in_int (capacity s) ->
  fst (run s tss) =
  repeat true (Nat.min (length tss) (Z.to_nat (capacity s - k))) ++
  repeat false (length tss - Z.to_nat (capacity s - k)).
Proof.
  induction tss as [|ts tss IH]; intros s k Hr Hb Hk Hc; [reflexivity|].
  rewrite leaky_run_cons. cbn [fst length].
  assert (Hk' : 0 <= k < 2 ^ 52) by (unfold in_int in Hc; simpl; lia).
  rewrite allow_zero_rate; [|exact Hr|rewrite Hb; apply d_of_Z_nonneg; simpl in *; lia].
  rewrite (add_request_int _ k) by (cbn [bucket capacity]; assumption).
  cbn [capacity leakRate last_ts].
  destruct (Z.leb_spec (k + 1) (capacity s)) as [Hle|Hgt]; cbn [fst snd].
  - rewrite (IH _ (k + 1)); cbn [bucket capacity leakRate last_ts]; auto; try lia.
    replace (Z.to_nat (capacity s - k)) with (S (Z.to_nat (capacity s - (k + 1)))) by lia.
    reflexivity.
  - rewrite (IH _ k); cbn [bucket capacity leakRate last_ts]; auto.
    replace (Z.to_nat (capacity s - k)) with 0%nat by lia.
    rewrite Nat.min_0_r, !Nat.sub_0_r. reflexivity.
Qed.

(** *** Denied calls *)

Lemma add_request_denied s :
  fst (add_request s) = false -> add_request s = (false, s).
Proof. unfold add_request. destruct (dle _ _); [discriminate|reflexivity]. Qed.

Lemma allow_drained s ts :
  allow s ts = add_request (mk (capacity s) (leakRate s) (drained s ts) ts).
Proof. unfold allow, drained. now destruct (last_ts s =? -1). Qed.

Lemma drained_class s ts : nonneg_class (bucket s) -> nonneg_class (drained s ts).
Proof.
  intros Hb. unfold drained. destruct (last_ts s =? -1); [exact Hb|].
  apply after_drain_class; [exact Hb|]. intros sg m e. apply dmul_finite_exp.
Qed.

Lemma allow_denied_again s ts :
  nonneg_class (bucket s) -> in_int (leakRate s) -> fst (allow s ts) = false ->
  allow (snd (allow s ts)) ts = (false, snd (allow s ts)).
Proof.
  intros Hb Hr Hd. rewrite allow_drained in Hd. rewrite (allow_drained s ts).
  pose proof (add_request_denied _ Hd) as Ed. rewrite Ed. cbn [snd].
  rewrite allow_no_elapsed; cbn [bucket capacity leakRate last_ts].
  - exact Ed.
  - now apply drained_class.
  - exact Hr.
  - right. rewrite Z.sub_diag. reflexivity.
Qed.

Lemma allow_denied_level s ts :
  in_int (leakRate s) -> 0 <= leakRate s -> bounded_level s ->
  fst (allow s ts) = false ->
  finite_valid (bucket (snd (allow s ts))) = true /\
  0 <= SFval (bucket (snd (allow s ts))) <= SFval (bucket s).
Proof.
  intros Hr Hr0 [Hv Hb] Hd. rewrite allow_drained in Hd. rewrite allow_drained.
  rewrite (add_request_denied _ Hd). cbn [snd bucket].
  unfold drained. destruct (last_ts s =? -1); [split; [exact Hv|lia]|].
  apply after_drain; [exact Hv|lia|].
  apply drain_nonneg; [exact Hr|exact Hr0|apply delta_ms_nonneg].
Qed.

(** *** A bucket left alone long enough is empty *)

Lemma drain_whole s ts :
  in_int (capacity s) -> in_int (leakRate s) -> 1 <= leakRate s ->
  bounded_level s -> 1000 * capacity s < delta_ms s ts * leakRate s ->
  std_max d0 (dsub (bucket s) (drain s ts)) = d0.
Proof.
  intros Hc Hr Hr1 [Hv Hb] Hlong.
  pose proof (delta_ms_range s ts) as Hd.
  assert (HU : 0 < 2 ^ 1074) by (apply pow2_pos; lia).
  assert (Hc0 : 0 <= capacity s) by nia.
  assert (Hd1 : 0 < delta_ms s ts) by nia.
  apply drained_to_zero; [exact Hv|lia|]. unfold drain.
  destruct (d_of_Z_long (delta_ms s ts) ltac:(lia)) as (mx & ex & -> & Hbx & Hex & Hmx & Hvx).
  destruct (div_1000_lower (leakRate s) Hr ltac:(lia))
    as (my & ey & P & M & -> & Hey & HP & HM & HMP & Hvy).
  set (D := Z.min (delta_ms s ts) (2 ^ 53)) in *.
  assert (HD : 1 <= D) by (unfold D; change (2 ^ 53) with 9007199254740992; lia).
  assert (HDR : 1000 * capacity s + 1 <= D * leakRate s).
  { unfold D, in_int in *. change (2 ^ 31) with 2147483648 in *.
    change (2 ^ 53) with 9007199254740992.
    destruct (Z.min_spec (delta_ms s ts) 9007199254740992) as [[_ ->]|[_ ->]]; nia. }
  pose proof (drain_arith (capacity s) (leakRate s) D (2 ^ 1074) P M (val (Zpos my) ey)
                ltac:(unfold in_int in Hc; lia) Hr1 HD HP HM HMP Hvy HDR) as Hcy.
  assert (Hprod : SFval (bucket s) * 2 ^ 1074 <= val (Zpos mx) ex * val (Zpos my) ey).
  { pose proof (val_pos my ey ltac:(lia)) as Hy0.
    assert (SFval (bucket s) * 2 ^ 1074 <= capacity s * 2 ^ 1074 * 2 ^ 1074)
      by (apply Z.mul_le_mono_nonneg_r; lia).
    assert (D * 2 ^ 1074 * val (Zpos my) ey <= val (Zpos mx) ex * val (Zpos my) ey)
      by (apply Z.mul_le_mono_nonneg_r; lia).
    assert (capacity s * 2 ^ 1074 * 2 ^ 1074 <= D * val (Zpos my) ey * 2 ^ 1074)
      by (apply Z.mul_le_mono_nonneg_r; lia).
    lia. }
  destruct (finite_valid_nonneg_cases (bucket s) Hv ltac:(lia))
    as [[sb Eb]|(mb & eb & Eb & Hbb & Heb)]; rewrite Eb in *.
  - (* an empty bucket: any finite result will do *)
    cbn [SFval] in *.
    assert (H1 : canonical 1 (-1074) = true) by reflexivity.
    destruct (dmul_lower mx ex my ey 1 (-1074) ltac:(lia) ltac:(lia) ltac:(lia) Hmx H1)
      as [->|(md & ed & -> & Hed & _)]; [|now left|right].
    + change (val 1 (-1074)) with 1. rewrite Z.mul_1_l.
      pose proof (val_pos mx ex ltac:(lia)). pose proof (val_pos my ey ltac:(lia)).
      assert (2 ^ 1074 * 1 <= val (Zpos mx) ex * val (Zpos my) ey); [|lia].
      apply Z.mul_le_mono_nonneg; lia.
    + exists md, ed. split; [reflexivity|]. split; [exact Hed|].
      pose proof (val_pos md ed Hed). lia.
  - cbn [SFval cond_Zopp] in *. apply bounded_iff in Hbb as [Hcb _].
    destruct (dmul_lower mx ex my ey mb eb ltac:(lia) ltac:(lia) ltac:(lia) Hmx Hcb Hprod)
      as [->|(md & ed & -> & Hed & Hge)]; [now left|right].
    exists md, ed. auto.
Qed.

Lemma denied_repeat s ts n :
  allow s ts = (false, s) -> run s (repeat ts n) = (repeat false n, s).
Proof.
  intros H. induction n as [|n IH]; [reflexivity|].
  cbn [repeat]. rewrite leaky_run_cons, H. cbn [fst snd]. now rewrite IH.
Qed.

Lemma leaky_run_last tss : forall s, last_ts (snd (run s tss)) = last tss (last_ts s).
Proof.
  induction tss as [|ts tss IH]; intros s; [reflexivity|].
  rewrite leaky_run_cons. cbn [snd]. rewrite IH.
  destruct (allow_fields s ts) as (_ & _ & ->).
  symmetry. apply last_cons.
Qed.

(** The state a run leaves: the parameters it was built with, a level in
    range, and the timestamp of its last call. *)
Lemma leaky_reached C R tss :
  in_int C -> 0 <= C -> in_int R -> 0 <= R ->
  capacity (snd (run (LeakyBucket C R) tss)) = C /\
  leakRate (snd (run (LeakyBucket C R) tss)) = R /\
  last_ts (snd (run (LeakyBucket C R) tss)) = last tss (-1) /\
  bounded_level (snd (run (LeakyBucket C R) tss)).
Proof.
  intros HC HC0 HR HR0.
  destruct (run_fields tss (LeakyBucket C R)) as [Ec Er].
  split; [exact Ec|]. split; [exact Er|]. split; [apply leaky_run_last|].
  apply run_bounded; try assumption. now apply bounded_level_init.
Qed.

End LeakyBucketRuns.

Module TokenBucketEdges.
Import TokenBucket TokenBucketFacts TokenBucketRuns.

(** *** A clock beyond [int] *)

Lemma to_int_beyond now : 2 ^ 31 <= now < 2 ^ 32 -> to_int now = now - 2 ^ 32.
Proof.
  intros H. unfold to_int, wrap. simpl (32 - 1).
  change (2 ^ 31) with 2147483648 in *. change (2 ^ 32) with 4294967296 in *.
  replace (now + 2147483648) with (now - 2147483648 + 1 * 4294967296) by lia.
  rewrite Z.mod_add by lia. rewrite Z.mod_small; lia.
Qed.

(** A check at a reading beyond [int], on a bucket whose last refill is
    stored as a value that is not positive: it is admitted, and the reading
    is stored as a negative value. *)
Lemma isAllowable_beyond s now j :
  in_int (capacity s) -> 1 <= capacity s -> in_int (refillRate s) -> 60 <= refillRate s ->
  tokens s = d_of_Z j -> 0 <= j <= capacity s ->
  - 2 ^ 31 <= lastRefillTime s <= 0 -> 2 ^ 31 <= now < 2 ^ 32 ->
  isAllowable s now =
  (true, mk (capacity s) (d_of_Z (capacity s - 1)) (refillRate s) (now - 2 ^ 32)).
Proof.
  intros Hc Hc1 Hr Hr60 Ht Hj Hl Hn.
  unfold in_int in *.
  change (2 ^ 31) with 2147483648 in *. change (2 ^ 32) with 4294967296 in *.
  assert (Hk : 1 <= refillRate s ÷ 60 <= 35791395).
  { rewrite Z.quot_div_nonneg by lia. split.
    - apply Z.div_le_lower_bound; lia.
    - apply Z.div_le_upper_bound; lia. }
  assert (Htp : timePassed s now = now - lastRefillTime s).
  { unfold timePassed. apply to_long_small. unfold in_long.
    change (2 ^ 63) with 9223372036854775808. lia. }
  assert (HE : to_long (timePassed s now * (refillRate s ÷ 60))
               = (now - lastRefillTime s) * (refillRate s ÷ 60)).
  { rewrite Htp. apply to_long_small. unfold in_long.
    change (2 ^ 63) with 9223372036854775808. nia. }
  rewrite (isAllowable_int s now j)
    by (rewrite ?HE; unfold in_int; change (2 ^ 31) with 2147483648; auto; nia).
  rewrite HE. cbv zeta.
  replace (Z.min (capacity s) (j + (now - lastRefillTime s) * (refillRate s ÷ 60)))
    with (capacity s) by nia.
  destruct (Z.leb_spec 1 (capacity s)); [|lia].
  rewrite to_int_beyond by (change (2 ^ 31) with 2147483648; change (2 ^ 32) with 4294967296; lia).
  reflexivity.
Qed.

Lemma run_beyond nows : forall s j,
  in_int (capacity s) -> 1 <= capacity s -> in_int (refillRate s) -> 60 <= refillRate s ->
  tokens s = d_of_Z j -> 0 <= j <= capacity s ->
  - 2 ^ 31 <= lastRefillTime s <= 0 ->
  Forall (fun now => 2 ^ 31 <= now < 2 ^ 32) nows ->
  fst (run s nows) = repeat true (length nows).
Proof.
  induction nows as [|now nows IH]; intros s j Hc Hc1 Hr Hr60 Ht Hj Hl Hall; [reflexivity|].
  inversion Hall as [|? ? Hn Hrest]; subst.
  rewrite token_run_cons, (isAllowable_beyond s now j) by assumption.
  cbn [fst snd length repeat]. f_equal.
  apply (IH _ (capacity s - 1)); cbn [capacity refillRate tokens lastRefillTime];
    auto; lia.
Qed.

(** *** A bucket refilled to the brim *)

Lemma run_refilled s t0 now n :
  settled s t0 -> t0 <= now < 2 ^ 31 -> 1 <= capacity s ->
  capacity s <= (now - lastRefillTime s) * (refillRate s ÷ 60) ->
  fst (run s (repeat now n)) =
  repeat true (Nat.min n (Z.to_nat (capacity s))) ++
  repeat false (n - Z.to_nat (capacity s)).
Proof.
  intros Hs Hn Hc1 Hidle. destruct n as [|n]; [reflexivity|].
  pose proof Hs as (Hc & Hr & Hr0 & (j & Ht & Hj) & Hl).
  cbn [repeat]. rewrite token_run_cons.
  rewrite (isAllowable_whole s now t0 j Hs Hn Ht Hj). cbv zeta.
  replace (Z.min (capacity s) (j + (now - lastRefillTime s) * (refillRate s ÷ 60)))
    with (capacity s) by lia.
  destruct (Z.leb_spec 1 (capacity s)); [|lia]. cbn [fst snd].
  rewrite (run_same_now now n _ (capacity s - 1));
    cbn [tokens capacity lastRefillTime]; auto; try lia; [|unfold in_int; lia].
  replace (Z.to_nat (capacity s)) with (S (Z.to_nat (capacity s - 1))) by lia.
  reflexivity.
Qed.

End TokenBucketEdges.

(** ** Runs of the model *)

(** A token bucket of capacity 3 refilled at 60 tokens per minute: three
    checks in the first second are admitted, the fourth is denied, and one
    second later a token is there again. *)
Example token_scenario :
  fst (TokenBucket.run (TokenBucket.TokenBucket 3 60) [0; 0; 0; 0; 1])
  = [true; true; true; false; true].
Proof. vm_compute. reflexivity. Qed.

(** A leaky bucket of capacity 2 that leaks 3 units per second, filled at
    time 0: after 333 ms the level is the double next above 1.001, still too
    high for another unit; one millisecond later there is room. *)
Example leaky_fractional_drain :
  LeakyBucket.run (LeakyBucket.LeakyBucket 2 3) [0; 0; 100; 333]
  = ([true; true; false; false],
     LeakyBucket.mk 2 3 (S754_finite false 4508103226997866 (-52)) 333) /\
  fst (LeakyBucket.run (LeakyBucket.LeakyBucket 2 3) [0; 0; 100; 333; 334])
  = [true; true; false; false; true].
Proof. split; vm_compute; reflexivity. Qed.

(** ** The specification's claims *)

Ltac in_range := unfold in_int, in_long; cbn; lia.

(** C1, against the code.  The claim: the tokens earned are
    [elapsed * (rate / 60)] with a real-number division, so that a rate
    between 0 and 60 tokens per minute still earns tokens over a long enough
    time.  The code divides two [int]s: for every such rate [refillRate/60]
    is 0 and the tokens earned are [0.0], whatever time has passed. *)
Theorem earned_is_zero_below_60 (s : TokenBucket.t) (now : Z) :
  0 < TokenBucket.refillRate s < 60 ->
  TokenBucket.earned s now = d0.
Proof.
  intros Hr. unfold TokenBucket.earned.
  rewrite Z.quot_small by lia. rewrite Z.mul_0_r. reflexivity.
Qed.

Lemma earned_is_zero_below_60_witness :
  0 < TokenBucket.refillRate (TokenBucket.TokenBucket 1 30) < 60 /\
  TokenBucket.earned (TokenBucket.TokenBucket 1 30) 120 = d0.
Proof.
  split; [cbn; lia|]. apply earned_is_zero_below_60. cbn; lia.
Defined.

(** C2, the claim as the spec states it fails: both constructors complete
    for a capacity of zero, and the limiters they yield deny every check. *)
Lemma construct_accepts_zero_capacity :
  LeakyBucket.construct 0 1 = Constructed (LeakyBucket.LeakyBucket 0 1) /\
  TokenBucket.construct 0 60 = Constructed (TokenBucket.TokenBucket 0 60) /\
  fst (LeakyBucket.run (LeakyBucket.LeakyBucket 0 1) [0; 1000; 2000])
    = [false; false; false] /\
  fst (TokenBucket.run (TokenBucket.TokenBucket 0 60) [0; 1000; 2000])
    = [false; false; false].
Proof. repeat split; vm_compute; reflexivity. Qed.

(** C2, amended.  Construction never fails: for every capacity and rate
    both constructors complete without a check, also for a capacity or a
    rate that is not positive; a limiter of capacity [<= 0] then denies
    every admission check. *)
Theorem construct_never_fails (capacity rate : Z) :
  in_int capacity ->
  LeakyBucket.construct capacity rate
    = Constructed (LeakyBucket.LeakyBucket capacity rate) /\
  TokenBucket.construct capacity rate
    = Constructed (TokenBucket.TokenBucket capacity rate) /\
  (capacity <= 0 ->
   (forall tss,
      fst (LeakyBucket.run (LeakyBucket.LeakyBucket capacity rate) tss)
        = repeat false (length tss)) /\
   (forall nows,
      fst (TokenBucket.run (TokenBucket.TokenBucket capacity rate) nows)
        = repeat false (length nows))).
Proof.
  intros Hi. split; [reflexivity|]. split; [reflexivity|]. intros Hc. split.
  - intros tss. apply LeakyBucketFacts.leaky_run_deny; cbn; auto. now left.
  - intros nows. apply TokenBucketFacts.token_run_deny; cbn; auto.
    right. unfold in_int in Hi. change (2 ^ 31) with 2147483648 in Hi.
    destruct (d_of_Z_valid capacity ltac:(simpl; lia)) as [-> ->]. split; [reflexivity|lia].
Qed.

Lemma construct_never_fails_witness :
  in_int (-2) /\
  LeakyBucket.construct (-2) 5 = Constructed (LeakyBucket.LeakyBucket (-2) 5) /\
  fst (TokenBucket.run (TokenBucket.TokenBucket (-2) 5) [0; 7]) = [false; false].
Proof.
  split; [in_range|].
  pose proof (construct_never_fails (-2) 5 ltac:(in_range)) as (H1 & _ & H3).
  split; [exact H1|]. destruct (H3 ltac:(lia)) as [_ H4]. exact (H4 [0; 7]).
Defined.







(** C5.  The leaky bucket sets [last_ts] to the timestamp it is given on
    every check, admitted or not; the token bucket sets [lastRefillTime] to
    the clock value only when it admits, and leaves it as it was on every
    denial. *)
Theorem last_update_policy :
  (forall s ts, LeakyBucket.last_ts (snd (LeakyBucket.allow s ts)) = ts) /\
  (forall s now,
     (fst (TokenBucket.isAllowable s now) = true ->
      TokenBucket.lastRefillTime (snd (TokenBucket.isAllowable s now)) = to_int now /\
      (in_int now ->
       TokenBucket.lastRefillTime (snd (TokenBucket.isAllowable s now)) = now)) /\
     (fst (TokenBucket.isAllowable s now) = false ->
      TokenBucket.lastRefillTime (snd (TokenBucket.isAllowable s now))
        = TokenBucket.lastRefillTime s)).
Proof.
  split.
  - intros s ts. apply LeakyBucketFacts.allow_fields.
  - intros s now.
    destruct (TokenBucketFacts.isAllowable_fields s now) as (_ & _ & Ht & Hf).
    split; [|exact Hf]. intros Hadm. split; [now apply Ht|].
    intros Hi. rewrite (Ht Hadm). now apply to_int_small.
Qed.

Lemma last_update_policy_witness :
  let s := snd (TokenBucket.isAllowable (TokenBucket.TokenBucket 1 60) 4) in
  fst (TokenBucket.isAllowable s 4) = false /\
  TokenBucket.lastRefillTime (snd (TokenBucket.isAllowable s 4)) = 4 /\
  fst (TokenBucket.isAllowable s 9) = true /\
  TokenBucket.lastRefillTime (snd (TokenBucket.isAllowable s 9)) = 9.
Proof.
  cbv zeta.
  assert (Hf : fst (TokenBucket.isAllowable
            (snd (TokenBucket.isAllowable (TokenBucket.TokenBucket 1 60) 4)) 4) = false)
    by (vm_compute; reflexivity).
  assert (Ht : fst (TokenBucket.isAllowable
            (snd (TokenBucket.isAllowable (TokenBucket.TokenBucket 1 60) 4)) 9) = true)
    by (vm_compute; reflexivity).
  destruct last_update_policy as [_ HT].
  split; [exact Hf|]. split.
  - exact (proj2 (HT _ 4) Hf).
  - split; [exact Ht|]. apply (proj1 (HT _ 9) Ht). in_range.
Defined.

(** C6.  A fresh leaky bucket of capacity 2 that leaks 1 unit per second
    answers the calls at 0, 0, 0, 1000, 1000 ms with true, true, false,
    true, false. *)
Theorem leaky_scenario :
  fst (LeakyBucket.run (LeakyBucket.LeakyBucket 2 1) [0; 0; 0; 1000; 1000])
  = [true; true; false; true; false].
Proof. vm_compute. reflexivity. Qed.






(** C9, against the code.  The claim: once the [C] tokens of the full
    bucket are spent, a check succeeds when [60/R] seconds have passed since
    the last admission.  With a rate [R] under 60 per minute the code never
    refills: after the [C] admissions every later check is denied, whatever
    the clock reads. *)
Theorem no_refill_below_60 (C R : Z) (spend later : list Z) :
  in_int C -> 1 <= C -> 0 < R < 60 -> length spend = Z.to_nat C ->
  fst (TokenBucket.run (TokenBucket.TokenBucket C R) (spend ++ later))
  = repeat true (Z.to_nat C) ++ repeat false (length later).
Proof.
  intros Hc Hc1 Hr Hl.
  rewrite (TokenBucketFacts.run_no_refill _ _ C); cbn; auto; try lia.
  - rewrite length_app, Hl.
    replace (Nat.min (Z.to_nat C + length later) (Z.to_nat C)) with (Z.to_nat C) by lia.
    replace (Z.to_nat C + length later - Z.to_nat C)%nat with (length later) by lia.
    reflexivity.
  - apply Z.quot_small. lia.
Qed.

Lemma no_refill_below_60_witness :
  in_int 1 /\ 1 <= 1 /\ 0 < 30 < 60 /\ length [0] = Z.to_nat 1 /\
  fst (TokenBucket.run (TokenBucket.TokenBucket 1 30) ([0] ++ [2; 3600]))
  = [true; false; false].
Proof.
  split; [in_range|]. split; [lia|]. split; [lia|]. split; [reflexivity|].
  apply (no_refill_below_60 1 30 [0] [2; 3600]); (in_range || lia || reflexivity).
Defined.

(** With a rate of 60 per minute or more the code does what C9 says: on an
    empty bucket whose last admission was at [t0], a check at the clock
    value [t0 + d] is admitted exactly when at least one second has passed
    ([60/R] seconds is at most one second, and the clock counts whole
    seconds). *)
Lemma refill_from_60 (s : TokenBucket.t) (d : Z) :
  in_int (TokenBucket.capacity s) -> 1 <= TokenBucket.capacity s ->
  in_int (TokenBucket.refillRate s) -> 60 <= TokenBucket.refillRate s ->
  TokenBucket.tokens s = d0 -> 0 <= TokenBucket.lastRefillTime s ->
  0 <= d -> TokenBucket.lastRefillTime s + d < 2 ^ 31 ->
  fst (TokenBucket.isAllowable s (TokenBucket.lastRefillTime s + d)) = (1 <=? d).
Proof.
  intros Hc Hc1 Hr Hr60 Ht Hl Hd Hn.
  destruct (TokenBucketFacts.earned_steady s (TokenBucket.lastRefillTime s + d)
              Hr ltac:(lia) ltac:(lia) Hn) as [HE HE0].
  rewrite (TokenBucketFacts.isAllowable_int s _ 0) by (rewrite ?HE; auto; lia).
  rewrite HE. cbv zeta.
  replace (TokenBucket.lastRefillTime s + d - TokenBucket.lastRefillTime s) with d in * by lia.
  assert (1 <= TokenBucket.refillRate s ÷ 60).
  { rewrite Z.quot_div_nonneg by lia. apply Z.div_le_lower_bound; lia. }
  destruct (Z.leb_spec 1 d).
  - destruct (Z.leb_spec 1 (Z.min (TokenBucket.capacity s)
                              (0 + d * (TokenBucket.refillRate s ÷ 60)))); [reflexivity|nia].
  - replace d with 0 by lia. rewrite Z.mul_0_l.
    destruct (Z.leb_spec 1 (Z.min (TokenBucket.capacity s) (0 + 0))); [lia|reflexivity].
Qed.

(** C10, the claim as stated fails: on a leaky bucket of capacity 1 whose
    first call carries the timestamp -1, the second call (at 0) is handled
    as a first call and denied, but the third (at 1000) drains the bucket
    and is admitted. *)
Lemma sentinel_then_drain :
  fst (LeakyBucket.run (LeakyBucket.LeakyBucket 1 1) [-1; 0; 1000])
  = [true; false; true].
Proof. vm_compute. reflexivity. Qed.

(** C10, amended.  A call is handled as a first call (no draining, only
    the attempt to add one unit) whenever the stored timestamp is -1; a call
    that supplies -1 stores -1 again, so the call after it is handled as a
    first call too.  Hence when the first call and every subsequent call
    supply -1, nothing is ever drained: the calls are admitted until the
    bucket is full and every later such call is denied. *)
Theorem sentinel_timestamp :
  (forall s ts,
     LeakyBucket.last_ts s = -1 ->
     LeakyBucket.allow s ts =
       LeakyBucket.add_request
         (LeakyBucket.mk (LeakyBucket.capacity s) (LeakyBucket.leakRate s)
            (LeakyBucket.bucket s) ts)) /\
  (forall s, LeakyBucket.last_ts (snd (LeakyBucket.allow s (-1))) = -1) /\
  (forall capacity rate n,
     in_int capacity -> 0 <= capacity -> in_int rate ->
     fst (LeakyBucket.run (LeakyBucket.LeakyBucket capacity rate) (repeat (-1) n))
     = repeat true (Nat.min n (Z.to_nat capacity)) ++
       repeat false (n - Z.to_nat capacity)).
Proof.
  split; [|split].
  - intros s ts Hl. unfold LeakyBucket.allow. rewrite Hl. reflexivity.
  - intros s. apply LeakyBucketFacts.allow_fields.
  - intros capacity rate n Hc Hc0 Hr.
    rewrite (LeakyBucketFacts.run_same_ts (-1) n _ 0); cbn; auto; try lia.
    rewrite Z.sub_0_r. reflexivity.
Qed.

Lemma sentinel_timestamp_witness :
  LeakyBucket.last_ts (LeakyBucket.LeakyBucket 2 1) = -1 /\
  in_int 2 /\ 0 <= 2 /\ in_int 1 /\
  fst (LeakyBucket.run (LeakyBucket.LeakyBucket 2 1) [-1; -1; -1; -1])
  = [true; true; false; false].
Proof.
  split; [reflexivity|]. split; [in_range|]. split; [lia|]. split; [in_range|].
  destruct sentinel_timestamp as (_ & _ & H).
  exact (H 2 1 4%nat ltac:(in_range) ltac:(lia) ltac:(in_range)).
Defined.

(** ** Further properties of the code *)

(** Properties of the two classes beyond the claims of the specification,
    each read off the source: [TokenBucket::isAllowable] first, then
    [LeakyBucket::allow]. *)

(** X1.  Under its steady clock the token bucket always holds a whole
    number of tokens, from zero to its capacity: the [double] arithmetic of
    the refill is exact, and no fraction of a token is ever kept. *)
Theorem token_count_is_whole (C R : Z) (nows : list Z) :
  in_int C -> 0 <= C -> in_int R -> 0 <= R -> TokenBucket.steady 0 nows ->
  exists j,
    TokenBucket.tokens (snd (TokenBucket.run (TokenBucket.TokenBucket C R) nows))
      = d_of_Z j /\
    0 <= j <= C.
Proof.
  intros HC HC0 HR HR0 Hs.
  destruct (TokenBucketRuns.settled_run C R nows HC HC0 HR HR0 Hs) as ((_ & _ & _ & (j & Ht & Hj) & _) & Ec & _).
  exists j. split; [exact Ht|]. now rewrite <- Ec.
Qed.

Lemma token_count_is_whole_witness :
  in_int 5 /\ 0 <= 5 /\ in_int 150 /\ 0 <= 150 /\ TokenBucket.steady 0 [7; 7; 7; 8; 8; 8; 8] /\
  exists j,
    TokenBucket.tokens
      (snd (TokenBucket.run (TokenBucket.TokenBucket 5 150) [7; 7; 7; 8; 8; 8; 8]))
      = d_of_Z j /\
    0 <= j <= 5.
Proof.
  assert (Hs : TokenBucket.steady 0 [7; 7; 7; 8; 8; 8; 8]) by (cbn; lia).
  split; [in_range|]. split; [lia|]. split; [in_range|]. split; [lia|]. split; [exact Hs|].
  apply token_count_is_whole; (in_range || lia || exact Hs).
Defined.

(** X2.  The decision of the token bucket: under its steady clock a check
    is admitted exactly when a token was left in the bucket or the time
    since the last refill has earned one, at [refillRate/60] tokens per
    second. *)
Theorem token_check_decision (C R : Z) (before : list Z) (now : Z) :
  in_int C -> 1 <= C -> in_int R -> 0 <= R ->
  TokenBucket.steady 0 (before ++ [now]) ->
  let s := snd (TokenBucket.run (TokenBucket.TokenBucket C R) before) in
  fst (TokenBucket.isAllowable s now)
  = dge (TokenBucket.tokens s) d1
    || (1 <=? (now - TokenBucket.lastRefillTime s) * (R ÷ 60)).
Proof.
  intros HC HC1 HR HR0 Hst s. apply TokenBucketRuns.steady_app in Hst as [Hb [Hn _]].
  destruct (TokenBucketRuns.settled_run C R before HC ltac:(lia) HR HR0 Hb) as (Hs & Ec & Er).
  fold s in Hs, Ec, Er.
  pose proof Hs as (_ & _ & _ & (j & Ht & Hj) & Hl).
  rewrite (TokenBucketRuns.isAllowable_whole s now _ j Hs Hn Ht Hj). cbv zeta.
  rewrite Ht, Ec, Er in *. unfold dge. rewrite d1_of_Z.
  unfold in_int in HC. change (2 ^ 31) with 2147483648 in HC.
  fold (dle (d_of_Z 1) (d_of_Z j)). rewrite d_of_Z_le by (simpl; lia).
  assert (Hk : 0 <= R ÷ 60) by (apply Z.quot_pos; lia).
  set (E := (now - TokenBucket.lastRefillTime s) * (R ÷ 60)).
  assert (0 <= E) by (unfold E; nia).
  destruct (Z.leb_spec 1 (Z.min C (j + E))); destruct (Z.leb_spec 1 j);
    destruct (Z.leb_spec 1 E); cbn; try reflexivity; lia.
Qed.

Lemma token_check_decision_witness :
  let s := snd (TokenBucket.run (TokenBucket.TokenBucket 1 120) [3]) in
  in_int 1 /\ 1 <= 1 /\ in_int 120 /\ 0 <= 120 /\ TokenBucket.steady 0 ([3] ++ [4]) /\
  fst (TokenBucket.isAllowable s 4)
  = dge (TokenBucket.tokens s) d1
    || (1 <=? (4 - TokenBucket.lastRefillTime s) * (120 ÷ 60)).
Proof.
  assert (Hs : TokenBucket.steady 0 ([3] ++ [4])) by (cbn; lia).
  cbv zeta.
  split; [in_range|]. split; [lia|]. split; [in_range|]. split; [lia|]. split; [exact Hs|].
  apply (token_check_decision 1 120 [3] 4); (in_range || lia || exact Hs).
Defined.

(** X3.  A denied check leaves the token bucket as it was: under the
    steady clock neither the tokens nor the time of the last refill
    change, so repeated denied checks earn nothing twice. *)
Theorem token_denial_changes_nothing (C R : Z) (before : list Z) (now : Z) :
  in_int C -> 0 <= C -> in_int R -> 0 <= R ->
  TokenBucket.steady 0 (before ++ [now]) ->
  let s := snd (TokenBucket.run (TokenBucket.TokenBucket C R) before) in
  fst (TokenBucket.isAllowable s now) = false ->
  snd (TokenBucket.isAllowable s now) = s.
Proof.
  intros HC HC0 HR HR0 Hst s. apply TokenBucketRuns.steady_app in Hst as [Hb [Hn _]].
  destruct (TokenBucketRuns.settled_run C R before HC HC0 HR HR0 Hb) as (Hs & Ec & Er).
  fold s in Hs, Ec, Er.
  pose proof Hs as (_ & _ & _ & (j & Ht & Hj) & Hl).
  rewrite (TokenBucketRuns.isAllowable_whole s now _ j Hs Hn Ht Hj). cbv zeta.
  assert (Hk : 0 <= TokenBucket.refillRate s ÷ 60) by (apply Z.quot_pos; lia).
  assert (HE : 0 <= (now - TokenBucket.lastRefillTime s) * (TokenBucket.refillRate s ÷ 60))
    by nia.
  match goal with |- context [1 <=? ?x] => destruct (Z.leb_spec 1 x) as [H1|H1] end;
    cbn [fst snd]; [discriminate|]. intros _.
  replace (Z.min (TokenBucket.capacity s)
             (j + (now - TokenBucket.lastRefillTime s) * (TokenBucket.refillRate s ÷ 60)))
    with j by lia.
  destruct s; cbn in *. subst. reflexivity.
Qed.

Lemma token_denial_changes_nothing_witness :
  let s := snd (TokenBucket.run (TokenBucket.TokenBucket 2 60) [5; 5]) in
  in_int 2 /\ 0 <= 2 /\ in_int 60 /\ 0 <= 60 /\ TokenBucket.steady 0 ([5; 5] ++ [5]) /\
  fst (TokenBucket.isAllowable s 5) = false /\
  snd (TokenBucket.isAllowable s 5) = s.
Proof.
  assert (Hs : TokenBucket.steady 0 ([5; 5] ++ [5])) by (cbn; lia).
  assert (Hd : fst (TokenBucket.isAllowable
                      (snd (TokenBucket.run (TokenBucket.TokenBucket 2 60) [5; 5])) 5) = false)
    by (vm_compute; reflexivity).
  cbv zeta.
  split; [in_range|]. split; [lia|]. split; [in_range|]. split; [lia|]. split; [exact Hs|].
  split; [exact Hd|].
  apply (token_denial_changes_nothing 2 60 [5; 5] 5); (in_range || lia || exact Hs || exact Hd).
Defined.

(** X4.  The rate limit of the token bucket.  Among the checks made while
    the steady clock goes from one value to a later one, at most
    [capacity + elapsed * (refillRate/60)] are admitted, whatever happened
    before. *)
Theorem token_bucket_rate_limit (C R : Z) (before window : list Z) :
  in_int C -> 0 <= C -> in_int R -> 0 <= R ->
  TokenBucket.steady 0 (before ++ window) ->
  granted
    (fst (TokenBucket.run
            (snd (TokenBucket.run (TokenBucket.TokenBucket C R) before)) window))
  <= C + (last window 0 - hd 0 window) * (R ÷ 60).
Proof.
  intros HC HC0 HR HR0 Hst. apply TokenBucketRuns.steady_app in Hst as [Hb Hw].
  destruct (TokenBucketRuns.settled_run C R before HC HC0 HR HR0 Hb) as (Hs & Ec & Er).
  set (s := snd (TokenBucket.run (TokenBucket.TokenBucket C R) before)) in *.
  destruct window as [|w1 rest].
  - cbn. change (granted []) with 0. lia.
  - destruct Hw as [Hn Hrest]. cbn [hd]. rewrite last_cons.
    rewrite TokenBucketFacts.token_run_cons. cbn [fst]. rewrite TokenBucketRuns.granted_cons.
    pose proof Hs as (_ & _ & _ & (j & Ht & Hj) & Hl).
    pose proof (TokenBucketRuns.isAllowable_settled s w1 _ Hs Hn) as Hs'.
    pose proof (TokenBucketRuns.isAllowable_whole s w1 _ j Hs Hn Ht Hj) as Hstep. cbv zeta in Hstep.
    assert (Hk : 0 <= TokenBucket.refillRate s ÷ 60) by (apply Z.quot_pos; lia).
    set (j' := Z.min _ _) in Hstep.
    assert (Hj' : 0 <= j' <= TokenBucket.capacity s) by (unfold j'; nia).
    rewrite Hstep in *.
    destruct (Z.leb_spec 1 j'); cbn [fst snd] in *.
    + pose proof (TokenBucketRuns.rate_limit_run rest _ w1 w1 1 (j' - 1) Hs' Hrest ltac:(lia) ltac:(lia)
                    eq_refl) as H1.
      cbn [TokenBucket.capacity TokenBucket.refillRate TokenBucket.lastRefillTime] in H1.
      rewrite ?Ec, ?Er in H1 |- *. apply H1; [lia|]. right. lia.
    + pose proof (TokenBucketRuns.rate_limit_run rest _ w1 w1 0 j' Hs' Hrest ltac:(lia) ltac:(lia)
                    eq_refl) as H1.
      cbn [TokenBucket.capacity TokenBucket.refillRate TokenBucket.lastRefillTime] in H1.
      rewrite ?Ec, ?Er in H1 |- *. apply H1; [lia|]. now left.
Qed.

Lemma token_bucket_rate_limit_witness :
  in_int 2 /\ 0 <= 2 /\ in_int 120 /\ 0 <= 120 /\
  TokenBucket.steady 0 ([1; 1] ++ [10; 10; 10; 10; 11; 11; 11; 11; 11]) /\
  granted
    (fst (TokenBucket.run
            (snd (TokenBucket.run (TokenBucket.TokenBucket 2 120) [1; 1]))
            [10; 10; 10; 10; 11; 11; 11; 11; 11]))
  <= 2 + (11 - 10) * (120 ÷ 60).
Proof.
  assert (Hs : TokenBucket.steady 0 ([1; 1] ++ [10; 10; 10; 10; 11; 11; 11; 11; 11]))
    by (cbn; lia).
  split; [in_range|]. split; [lia|]. split; [in_range|]. split; [lia|]. split; [exact Hs|].
  apply (token_bucket_rate_limit 2 120 [1; 1] [10; 10; 10; 10; 11; 11; 11; 11; 11]);
    (in_range || lia || exact Hs).
Defined.

(** X5.  The rate counts in whole tokens per second only: two token
    buckets of one capacity whose rates have the same quotient by 60 (90
    and 60 per minute, say) answer every sequence of checks alike. *)
Theorem token_rate_counts_by_60 (C R R' : Z) (nows : list Z) :
  R ÷ 60 = R' ÷ 60 ->
  fst (TokenBucket.run (TokenBucket.TokenBucket C R) nows)
  = fst (TokenBucket.run (TokenBucket.TokenBucket C R') nows).
Proof. intros Hq. now apply TokenBucketRuns.same_quotient_run. Qed.

Lemma token_rate_counts_by_60_witness :
  90 ÷ 60 = 60 ÷ 60 /\
  fst (TokenBucket.run (TokenBucket.TokenBucket 3 90) [0; 0; 0; 0; 1; 1; 2])
  = fst (TokenBucket.run (TokenBucket.TokenBucket 3 60) [0; 0; 0; 0; 1; 1; 2]).
Proof.
  split; [reflexivity|]. apply token_rate_counts_by_60. reflexivity.
Defined.

(** X6.  A leaky bucket built with a leak rate of zero never drains:
    whatever the timestamps of the calls, the first [capacity] of them are
    admitted and every later one is denied. *)
Theorem zero_leak_rate_never_drains (C : Z) (tss : list Z) :
  in_int C ->
  fst (LeakyBucket.run (LeakyBucket.LeakyBucket C 0) tss) =
  repeat true (Nat.min (length tss) (Z.to_nat C)) ++
  repeat false (length tss - Z.to_nat C).
Proof.
  intros HC. destruct (Z_lt_le_dec C 0) as [Hneg|Hpos].
  - rewrite LeakyBucketFacts.leaky_run_deny; cbn; [|lia|exact HC|now left].
    replace (Z.to_nat C) with 0%nat by lia.
    now rewrite Nat.min_0_r, Nat.sub_0_r.
  - rewrite (LeakyBucketRuns.run_zero_rate tss _ 0); cbn; try (reflexivity || lia || exact HC).
    now rewrite Z.sub_0_r.
Qed.

Lemma zero_leak_rate_never_drains_witness :
  in_int 2 /\
  fst (LeakyBucket.run (LeakyBucket.LeakyBucket 2 0) [0; 5000; 3600000; 86400000]) =
  [true; true; false; false].
Proof.
  split; [in_range|].
  apply (zero_leak_rate_never_drains 2 [0; 5000; 3600000; 86400000]). in_range.
Defined.

(** X7.  A denied call of the leaky bucket can be repeated at will: the
    same timestamp is denied again, any number of times, and the limiter
    stays as the denied call left it. *)
Theorem leaky_denial_repeats (C R : Z) (before : list Z) (ts : Z) (n : nat) :
  in_int R ->
  let s := snd (LeakyBucket.run (LeakyBucket.LeakyBucket C R) before) in
  fst (LeakyBucket.allow s ts) = false ->
  LeakyBucket.run (snd (LeakyBucket.allow s ts)) (repeat ts n)
  = (repeat false n, snd (LeakyBucket.allow s ts)).
Proof.
  intros HR s Hd. apply LeakyBucketRuns.denied_repeat.
  destruct (LeakyBucketFacts.run_fields before (LeakyBucket.LeakyBucket C R)) as [_ Er].
  apply LeakyBucketRuns.allow_denied_again; [|fold s in Er; rewrite Er; exact HR|exact Hd].
  apply LeakyBucketFacts.run_class. now left.
Qed.

Lemma leaky_denial_repeats_witness :
  in_int 10 /\
  let s := snd (LeakyBucket.run (LeakyBucket.LeakyBucket 2 10) [0; 0]) in
  fst (LeakyBucket.allow s 50) = false /\
  LeakyBucket.run (snd (LeakyBucket.allow s 50)) (repeat 50 3)
  = (repeat false 3, snd (LeakyBucket.allow s 50)).
Proof.
  split; [in_range|]. intros s.
  assert (Hd : fst (LeakyBucket.allow s 50) = false) by (vm_compute; reflexivity).
  split; [exact Hd|].
  apply (leaky_denial_repeats 2 10 [0; 0] 50 3); [in_range|exact Hd].
Defined.

(** X8.  A denied call adds nothing to the leaky bucket: the level it
    leaves is not above the level it found (and not below zero). *)
Theorem leaky_denial_never_raises (C R : Z) (before : list Z) (ts : Z) :
  in_int C -> 0 <= C -> in_int R -> 0 <= R ->
  let s := snd (LeakyBucket.run (LeakyBucket.LeakyBucket C R) before) in
  fst (LeakyBucket.allow s ts) = false ->
  dle (LeakyBucket.bucket (snd (LeakyBucket.allow s ts))) (LeakyBucket.bucket s) = true /\
  dle d0 (LeakyBucket.bucket (snd (LeakyBucket.allow s ts))) = true.
Proof.
  intros HC HC0 HR HR0 s Hd.
  destruct (LeakyBucketRuns.leaky_reached C R before HC HC0 HR HR0) as (_ & Er & _ & Hb).
  fold s in Er, Hb.
  destruct (LeakyBucketRuns.allow_denied_level s ts ltac:(now rewrite Er)
              ltac:(now rewrite Er) Hb Hd) as [Hv Hle].
  destruct Hb as [Hvs _].
  rewrite !dle_val by (assumption || reflexivity).
  change (SFval d0) with 0. split; apply Z.leb_le; lia.
Qed.

Lemma leaky_denial_never_raises_witness :
  in_int 2 /\ 0 <= 2 /\ in_int 10 /\ 0 <= 10 /\
  let s := snd (LeakyBucket.run (LeakyBucket.LeakyBucket 2 10) [0; 0]) in
  fst (LeakyBucket.allow s 50) = false /\
  dle (LeakyBucket.bucket (snd (LeakyBucket.allow s 50))) (LeakyBucket.bucket s) = true /\
  dle d0 (LeakyBucket.bucket (snd (LeakyBucket.allow s 50))) = true.
Proof.
  split; [in_range|]. split; [lia|]. split; [in_range|]. split; [lia|]. intros s.
  assert (Hd : fst (LeakyBucket.allow s 50) = false) by (vm_compute; reflexivity).
  split; [exact Hd|].
  apply (leaky_denial_never_raises 2 10 [0; 0] 50); (in_range || lia || exact Hd).
Defined.

(** X9.  A leaky bucket left alone for more than [capacity / leakRate]
    seconds is empty again: whatever the calls before, a call that comes
    more than [1000 * capacity / leakRate] milliseconds after the last one
    finds the level at zero, is admitted, and leaves the level at exactly
    [1.0].  The bound is in the [double] arithmetic of the code: the
    rounding of [leakRate / 1000.0] and of its product with the elapsed
    time never keeps the drain below the level. *)
Theorem leaky_idle_bucket_recovers (C R : Z) (before : list Z) (ts : Z) :
  in_int C -> 1 <= C -> in_int R -> 1 <= R ->
  last before (-1) <> -1 ->
  in_long (ts - last before (-1)) ->
  1000 * C < (ts - last before (-1)) * R ->
  LeakyBucket.allow (snd (LeakyBucket.run (LeakyBucket.LeakyBucket C R) before)) ts
  = (true, LeakyBucket.mk C R d1 ts).
Proof.
  intros HC HC1 HR HR1 Hl Hin Hlong.
  destruct (LeakyBucketRuns.leaky_reached C R before HC ltac:(lia) HR ltac:(lia))
    as (Ec & Er & El & Hb).
  set (s := snd (LeakyBucket.run (LeakyBucket.LeakyBucket C R) before)) in *.
  assert (Hdelta : LeakyBucket.delta_ms s ts = ts - last before (-1)).
  { unfold LeakyBucket.delta_ms. rewrite El, to_long_small by exact Hin.
    destruct (Z.ltb_spec (ts - last before (-1)) 0); [nia|reflexivity]. }
  unfold LeakyBucket.allow.
  destruct (Z.eqb_spec (LeakyBucket.last_ts s) (-1)) as [E|_]; [congruence|].
  rewrite LeakyBucketRuns.drain_whole; rewrite ?Ec, ?Er, ?Hdelta; try assumption.
  rewrite (LeakyBucketFacts.add_request_int _ 0); cbn; try (reflexivity || lia || exact HC).
  destruct (Z.leb_spec 1 C); [reflexivity|lia].
Qed.

Lemma leaky_idle_bucket_recovers_witness :
  in_int 2 /\ 1 <= 2 /\ in_int 3 /\ 1 <= 3 /\
  last [0; 0; 0] (-1) <> -1 /\ in_long (667 - last [0; 0; 0] (-1)) /\
  1000 * 2 < (667 - last [0; 0; 0] (-1)) * 3 /\
  LeakyBucket.allow (snd (LeakyBucket.run (LeakyBucket.LeakyBucket 2 3) [0; 0; 0])) 667
  = (true, LeakyBucket.mk 2 3 d1 667).
Proof.
  split; [in_range|]. split; [lia|]. split; [in_range|]. split; [lia|].
  split; [cbn; lia|]. split; [in_range|]. split; [cbn; lia|].
  apply (leaky_idle_bucket_recovers 2 3 [0; 0; 0] 667); (in_range || (cbn; lia)).
Defined.

(** The bound of X9 is strict for a reason: at exactly
    [1000 * capacity / leakRate] milliseconds the rounded drain can fall
    short of the level.  With a capacity and a rate of 1001, a full bucket
    is not empty one second later: the call is admitted, on a level just
    above zero. *)
Example idle_bound_is_strict :
  let s := snd (LeakyBucket.run (LeakyBucket.LeakyBucket 1001 1001) (repeat 0 1001)) in
  LeakyBucket.bucket s = d_of_Z 1001 /\
  fst (LeakyBucket.allow s 1000) = true /\
  LeakyBucket.bucket (snd (LeakyBucket.allow s 1000)) <> d1.
Proof. vm_compute. repeat split; discriminate. Qed.

(** X10.  A token bucket that was idle long enough is full, and no more
    than full: under the steady clock, once
    [(now - lastRefillTime) * (refillRate/60)] reaches the capacity, of
    [n] checks made at the reading [now] the first [capacity] are admitted
    and the others are denied, whatever happened before. *)
Theorem token_burst_after_idle (C R : Z) (before : list Z) (now : Z) (n : nat) :
  in_int C -> 1 <= C -> in_int R -> 0 <= R ->
  TokenBucket.steady 0 (before ++ [now]) ->
  let s := snd (TokenBucket.run (TokenBucket.TokenBucket C R) before) in
  C <= (now - TokenBucket.lastRefillTime s) * (R ÷ 60) ->
  fst (TokenBucket.run s (repeat now n)) =
  repeat true (Nat.min n (Z.to_nat C)) ++ repeat false (n - Z.to_nat C).
Proof.
  intros HC HC1 HR HR0 Hst s Hidle.
  apply TokenBucketRuns.steady_app in Hst as [Hb [Hn _]].
  destruct (TokenBucketRuns.settled_run C R before HC ltac:(lia) HR HR0 Hb) as (Hs & Ec & Er).
  fold s in Hs, Ec, Er. rewrite <- Ec.
  apply (TokenBucketEdges.run_refilled s (last before 0) now n Hs Hn); rewrite ?Ec, ?Er; lia.
Qed.

Lemma token_burst_after_idle_witness :
  in_int 3 /\ 1 <= 3 /\ in_int 120 /\ 0 <= 120 /\
  TokenBucket.steady 0 ([5; 5; 5; 5] ++ [7]) /\
  3 <= (7 - TokenBucket.lastRefillTime
              (snd (TokenBucket.run (TokenBucket.TokenBucket 3 120) [5; 5; 5; 5])))
       * (120 ÷ 60) /\
  fst (TokenBucket.run
         (snd (TokenBucket.run (TokenBucket.TokenBucket 3 120) [5; 5; 5; 5]))
         (repeat 7 5))
  = [true; true; true; false; false].
Proof.
  assert (Hs : TokenBucket.steady 0 ([5; 5; 5; 5] ++ [7])) by (cbn; lia).
  assert (Hi : 3 <= (7 - TokenBucket.lastRefillTime
                (snd (TokenBucket.run (TokenBucket.TokenBucket 3 120) [5; 5; 5; 5])))
               * (120 ÷ 60)) by (vm_compute; discriminate).
  split; [in_range|]. split; [lia|]. split; [in_range|]. split; [lia|].
  split; [exact Hs|]. split; [exact Hi|].
  apply (token_burst_after_idle 3 120 [5; 5; 5; 5] 7 5); (in_range || lia || exact Hs || exact Hi).
Defined.

(** X11.  The clock value is kept in an [int].  Once the steady clock
    reads [2^31] seconds or more, the value stored by an admitted check is
    negative, every later check sees more than [2^31] seconds elapsed, and
    the bucket limits nothing: with a rate of 60 per minute or more, every
    check at readings from [2^31] to [2^32] is admitted, however many there
    are and in whatever order. *)
Theorem token_clock_beyond_int (C R : Z) (nows : list Z) :
  in_int C -> 1 <= C -> in_int R -> 60 <= R ->
  Forall (fun now => 2 ^ 31 <= now < 2 ^ 32) nows ->
  fst (TokenBucket.run (TokenBucket.TokenBucket C R) nows) = repeat true (length nows).
Proof.
  intros HC HC1 HR HR60 Hall.
  apply (TokenBucketEdges.run_beyond nows _ C); cbn; auto; lia.
Qed.

Lemma token_clock_beyond_int_witness :
  in_int 1 /\ 1 <= 1 /\ in_int 60 /\ 60 <= 60 /\
  Forall (fun now => 2 ^ 31 <= now < 2 ^ 32)
    [2147483648; 2147483648; 2147483648; 2147483649] /\
  fst (TokenBucket.run (TokenBucket.TokenBucket 1 60)
         [2147483648; 2147483648; 2147483648; 2147483649])
  = [true; true; true; true].
Proof.
  assert (Hall : Forall (fun now => 2 ^ 31 <= now < 2 ^ 32)
                   [2147483648; 2147483648; 2147483648; 2147483649])
    by (repeat constructor; cbn; lia).
  split; [in_range|]. split; [lia|]. split; [in_range|]. split; [lia|]. split; [exact Hall|].
  apply (token_clock_beyond_int 1 60 [2147483648; 2147483648; 2147483648; 2147483649]);
    (in_range || lia || exact Hall).
Defined.
